(** * The Poincare ball model of hyperbolic space

    A shallow embedding of [geomstats/geometry/poincare_ball.py]:
    the domain predicate [PoincareBall.belongs] and the operations of
    [PoincareBallMetric] (Moebius addition, exponential and logarithm
    maps, geodesic distance, retraction, inner-product matrix).

    The arrays of the numeric backend hold real numbers here: an array
    of shape [n_samples, dimension] is a list of rows, each row a list
    of reals, and an array of shape [n_samples, 1] (or [n_samples]) is
    a list with one real per row.  Shapes are taken to agree, as the
    source assumes them to: rows are paired positionally. *)

From Stdlib Require Import String Reals Lra Lia Psatz List Bool.
Import ListNotations.
Open Scope R_scope.

(** ** The numeric backend [gs] *)

Module gs.

Definition vec := list R.
Definition batch := list vec.

(** An array handed in by a caller is a single vector or a batch. *)
Inductive ndarray :=
| Arr1 (v : vec)
| Arr2 (m : batch).

(** [gs.to_ndarray(x, to_ndim=2)]: a lone vector becomes a batch of one. *)
Definition to_ndarray (x : ndarray) : batch :=
  match x with
  | Arr1 v => [v]
  | Arr2 m => m
  end.

Definition ltb (x y : R) : bool := if Rlt_dec x y then true else false.
Definition leb (x y : R) : bool := if Rle_dec x y then true else false.

Fixpoint zip_with {A B C} (f : A -> B -> C) (xs : list A) (ys : list B)
  : list C :=
  match xs, ys with
  | x :: xs', y :: ys' => f x y :: zip_with f xs' ys'
  | _, _ => []
  end.

(** [gs.sum(x, axis=-1)] on one row. *)
Definition sum (v : vec) : R := fold_right Rplus 0 v.

(** [x ** 2], elementwise. *)
Definition sq (v : vec) : vec := map (fun x => x ^ 2) v.

(** [gs.einsum('...i,...i->...', a, b)] on one row. *)
Definition dot (a b : vec) : R := sum (zip_with Rmult a b).

(** [gs.linalg.norm(x, axis=-1)] on one row. *)
Definition norm (v : vec) : R := sqrt (sum (sq v)).

(** [gs.isclose(x, y)] with the backend's default tolerances. *)
Definition rtol : R := 1e-5.
Definition atol : R := 1e-8.
Definition isclose (x y : R) : bool :=
  leb (Rabs (x - y)) (atol + rtol * Rabs y).

(** [gs.clip(x, lo, hi)]. *)
Definition clip (x lo hi : R) : R := Rmin (Rmax x lo) hi.

(** [gs.arctanh]; [gs.tanh], [gs.sqrt] and [gs.log] are [tanh],
    [sqrt] and [ln]. *)
Definition arctanh (x : R) : R := / 2 * ln ((1 + x) / (1 - x)).

Definition all (bs : list bool) : bool := forallb (fun b => b) bs.
Definition any (bs : list bool) : bool := existsb (fun b => b) bs.

(** [x[mask]]: the rows of [x] that [mask] selects, in order. *)
Fixpoint select {A} (xs : list A) (mask : list bool) : list A :=
  match xs, mask with
  | x :: xs', m :: mask' =>
      if m then x :: select xs' mask' else select xs' mask'
  | _, _ => []
  end.

(** [x[mask] = c]: every selected row becomes [c]. *)
Fixpoint fill {A} (xs : list A) (mask : list bool) (c : A) : list A :=
  match xs, mask with
  | x :: xs', m :: mask' => (if m then c else x) :: fill xs' mask' c
  | _, _ => xs
  end.

(** [x[mask] = vals]: the selected rows take the rows of [vals], in
    order. *)
Fixpoint assign {A} (xs : list A) (mask : list bool) (vals : list A)
  : list A :=
  match xs, mask with
  | x :: xs', true :: mask' =>
      match vals with
      | v :: vals' => v :: assign xs' mask' vals'
      | [] => x :: assign xs' mask' []
      end
  | x :: xs', false :: mask' => x :: assign xs' mask' vals
  | _, _ => xs
  end.

(** [gs.eye(n, n)]. *)
Definition eye (n : nat) : list vec :=
  map (fun i => map (fun j => if Nat.eqb i j then 1 else 0) (seq 0 n))
      (seq 0 n).

(** [gs.zeros((1, n))]. *)
Definition zeros (n : nat) : batch := [repeat 0 n].

(** A number of the backend that may be infinite or not a number: what
    a division by zero, and a product with its result, give. *)
Inductive xfloat :=
| Fin (x : R)
| PInf
| NInf
| NaN.

(** [x / y] where the divisor may be zero: the sign of [x] decides the
    infinity, and [0 / 0] is not a number. *)
Definition xdiv (x y : R) : xfloat :=
  if Req_dec_T y 0
  then if Req_dec_T x 0 then NaN
       else if Rlt_dec 0 x then PInf else NInf
  else Fin (x / y).

(** [x ** 2]. *)
Definition xsqr (x : xfloat) : xfloat :=
  match x with
  | Fin r => Fin (r ^ 2)
  | PInf | NInf => PInf
  | NaN => NaN
  end.

(** [x * e] for a finite [e]: an infinity times zero is not a number. *)
Definition xmul (x : xfloat) (e : R) : xfloat :=
  match x with
  | Fin r => Fin (r * e)
  | PInf => if Req_dec_T e 0 then NaN
            else if Rlt_dec 0 e then PInf else NInf
  | NInf => if Req_dec_T e 0 then NaN
            else if Rlt_dec 0 e then NInf else PInf
  | NaN => NaN
  end.

End gs.

Import gs.

(** ** Errors *)

Inductive exn :=
| NameError (msg : string).

Inductive result (A : Type) :=
| Ok (a : A)
| Raise (e : exn).
Arguments Ok {A} a.
Arguments Raise {A} e.

Definition not_in_ball : exn :=
  NameError "Points do not belong to the Poincare ball".

(** ** Module constants *)

Definition TOLERANCE : R := 1e-6.
Definition EPSILON : R := 1e-6.

(** ** [PoincareBall] *)

Module PoincareBall.

(** [belongs] on one row: [gs.sum(point**2, axis=-1) < 1 - tolerance]. *)
Definition belongs_row (tolerance : R) (point : vec) : bool :=
  ltb (sum (sq point)) (1 - tolerance).

(** [belongs(point, tolerance)]: one boolean per row (a single boolean
    for a lone vector). *)
Definition belongs (point : ndarray) (tolerance : R) : list bool :=
  match point with
  | Arr1 v => [belongs_row tolerance v]
  | Arr2 m => map (belongs_row tolerance) m
  end.

End PoincareBall.

(** ** [PoincareBallMetric] *)

Record PoincareBallMetric := {
  dimension : nat;
  scale : R
}.

Module Metric.

Section Operations.

Variable self : PoincareBallMetric.

(** The body of [mobius_add] past the domain check, on one pair of
    rows. *)
Definition mobius_add_row (point_a point_b : vec) : vec :=
  let norm_point_a := sum (sq point_a) in
  let norm_point_b := sum (sq point_b) in
  let sum_prod_a_b := dot point_a point_b in
  let add_num_1 := 1 + 2 * sum_prod_a_b + norm_point_b in
  let add_num_1 := map (fun x => add_num_1 * x) point_a in
  let add_num_2 := map (fun x => (1 - norm_point_a) * x) point_b in
  let add_nominator := zip_with Rplus add_num_1 add_num_2 in
  let add_denominator :=
    1 + 2 * sum_prod_a_b + norm_point_a * norm_point_b in
  map (fun x => x * (1 / add_denominator)) add_nominator.

Definition mobius_add (point_a point_b : ndarray) : result batch :=
  let point_a := to_ndarray point_a in
  let point_b := to_ndarray point_b in
  let point_a_belong := PoincareBall.belongs (Arr2 point_a) TOLERANCE in
  let point_b_belong := PoincareBall.belongs (Arr2 point_b) TOLERANCE in
  if negb (all point_a_belong) || negb (all point_b_belong)
  then Raise not_in_ball
  else Ok (zip_with mobius_add_row point_a point_b).

(** [gs.isclose((tangent_vec * tangent_vec).sum(axis=-1), 0.)]. *)
Definition zero_mask (tangent_vec : batch) : list bool :=
  map (fun v => isclose (sum (zip_with Rmult v v)) 0) tangent_vec.

Definition exp (tangent_vec base_point : ndarray) : result batch :=
  let tangent_vec := to_ndarray tangent_vec in
  let base_point := to_ndarray base_point in
  let norm_base_point := map norm base_point in
  let den := map (fun x => 1 - x ^ 2) norm_base_point in
  let norm_tan := map norm tangent_vec in
  let lambda_base_point := map (fun d => 1 / d) den in
  let zero_tan := zero_mask tangent_vec in
  let norm_tan :=
    if any zero_tan
    then if negb (Nat.eqb (length (select norm_tan zero_tan)) 0)
         then fill norm_tan zero_tan EPSILON
         else norm_tan
    else norm_tan in
  let direction :=
    zip_with (fun v n => map (fun x => x * (1 / n)) v)
             tangent_vec norm_tan in
  let factor :=
    zip_with (fun l n => tanh (l * n)) lambda_base_point norm_tan in
  let operand :=
    zip_with (fun d f => map (fun x => x * f) d) direction factor in
  match mobius_add (Arr2 base_point) (Arr2 operand) with
  | Raise e => Raise e
  | Ok exp =>
      let zero_tan := zero_mask tangent_vec in
      Ok (if any zero_tan
          then if negb (Nat.eqb (length (select exp zero_tan)) 0)
               then assign exp zero_tan (select base_point zero_tan)
               else exp
          else exp)
  end.

Definition log (point base_point : ndarray) : result batch :=
  let base_point := to_ndarray base_point in
  let point := to_ndarray point in
  match mobius_add (Arr2 (map (map Ropp) base_point)) (Arr2 point) with
  | Raise e => Raise e
  | Ok add_base_point =>
      let norm_add := map norm add_base_point in
      let norm_base_point := map norm base_point in
      let log :=
        zip_with (fun nb na => (1 - nb ^ 2) * arctanh na)
                 norm_base_point norm_add in
      let log :=
        zip_with (fun l u => map (fun x => l * x) u) log
                 (zip_with (fun u n => map (fun x => x / n) u)
                           add_base_point norm_add) in
      let mask_0 := map (fun n => isclose n 0) norm_add in
      Ok (if any mask_0
          then zip_with (fun (m : bool) row =>
                           if m then map (fun _ => 0) row else row)
                        mask_0 log
          else log)
  end.

(** The body of [dist] on one pair of rows, before the scaling. *)
Definition dist_row (point_a point_b : vec) : R :=
  let point_a_norm := clip (sum (sq point_a)) 0 (1 - EPSILON) in
  let point_b_norm := clip (sum (sq point_b)) 0 (1 - EPSILON) in
  let diff_norm := sum (sq (zip_with Rminus point_a point_b)) in
  let norm_function :=
    1 + 2 * diff_norm / ((1 - point_a_norm) * (1 - point_b_norm)) in
  ln (norm_function + sqrt (norm_function ^ 2 - 1)).

(** [dist]: an array of shape [n_samples, 1]. *)
Definition dist (point_a point_b : ndarray) : batch :=
  let point_a := to_ndarray point_a in
  let point_b := to_ndarray point_b in
  let dist := zip_with dist_row point_a point_b in
  map (fun d => [d * scale self]) dist.

(** [base_point.shape[1]]. *)
Definition shape1 (m : batch) : nat :=
  match m with
  | [] => 0
  | row :: _ => length row
  end.

Definition retraction (tangent_vec base_point : ndarray)
  : result batch :=
  let base_point_belong := PoincareBall.belongs base_point TOLERANCE in
  if negb (all base_point_belong)
  then Raise not_in_ball
  else
    let tangent_vec := to_ndarray tangent_vec in
    let base_point := to_ndarray base_point in
    let retraction_factor :=
      map (fun p => (1 - sum (sq p)) ^ 2 / 4) base_point in
    let retraction_factor :=
      map (fun f => repeat f (shape1 base_point)) retraction_factor in
    Ok (zip_with (zip_with Rminus) base_point
          (zip_with (zip_with Rmult) retraction_factor tangent_vec)).

(** [inner_product_matrix(base_point=None)]: an array of shape
    [n_samples, dimension, dimension].  No check keeps [base_point] off
    the unit sphere, where the division is by zero: the entries are
    numbers that may be infinite or not a number. *)
Definition inner_product_matrix (base_point : option batch)
  : list (list (list xfloat)) :=
  let base_point :=
    match base_point with
    | None => zeros (dimension self)
    | Some m => m
    end in
  let dim := shape1 base_point in
  let n_sample := length base_point in
  let lambda_base :=
    map (fun p => xsqr (xdiv 2 (1 - sum (zip_with Rmult p p)))) base_point in
  let reshaped_lambda_base :=
    map (fun l => repeat (repeat l dim) dim) lambda_base in
  let identity := eye (dimension self) in
  let reshaped_identity := repeat identity n_sample in
  zip_with (zip_with (zip_with xmul))
           reshaped_lambda_base reshaped_identity.

End Operations.

End Metric.

(** ** The closed forms of the specification *)

Module Spec.

(** A point is in the ball when it passes [belongs] at the default
    tolerance. *)
Definition in_ball (p : vec) : Prop :=
  PoincareBall.belongs_row TOLERANCE p = true.

Definition all_in_ball (x : ndarray) : Prop :=
  all (PoincareBall.belongs x TOLERANCE) = true.

(** [(a (+) b) = [(1 + 2<a,b> + |b|^2) a + (1 - |a|^2) b]
                 / [1 + 2<a,b> + |a|^2 |b|^2]]. *)
Definition mobius (a b : vec) : vec :=
  zip_with
    (fun x y =>
       ((1 + 2 * dot a b + sum (sq b)) * x + (1 - sum (sq a)) * y)
       / (1 + 2 * dot a b + sum (sq a) * sum (sq b)))
    a b.

(** [base_point - [(1 - |base_point|^2)^2 / 4] * tangent_vec]. *)
Definition retract (tangent_vec base_point : vec) : vec :=
  zip_with
    (fun x t => x - (1 - sum (sq base_point)) ^ 2 / 4 * t)
    base_point tangent_vec.

(** The conformal factor [lambda(x) = 2 / (1 - |x|^2)]. *)
Definition lambda (x : vec) : R := 2 / (1 - sum (sq x)).

(** [c * I_d]. *)
Definition scaled_identity (c : R) (d : nat) : list vec :=
  map (fun i => map (fun j => if Nat.eqb i j then c else 0) (seq 0 d))
      (seq 0 d).

(** The linear combination [u * a + v * b] of two rows. *)
Definition lin2 (u v : R) (a b : vec) : vec :=
  zip_with (fun x y => u * x + v * y) a b.

(** The operand that [exp] hands to [mobius_add] on one row: the norm of
    a tangent vector within the near-zero threshold is replaced by
    [EPSILON]. *)
Definition exp_operand (v p : vec) : vec :=
  let n := if isclose (sum (zip_with Rmult v v)) 0 then EPSILON
           else norm v in
  map (fun x => x * (1 / n) * tanh (1 / (1 - norm p ^ 2) * n)) v.

(** The row that [exp] returns once [mobius_add] has returned [e]. *)
Definition exp_snap (vp : vec * vec) (e : vec) : vec :=
  if isclose (sum (zip_with Rmult (fst vp) (fst vp))) 0 then snd vp else e.

(** The row that [log] returns for the Moebius difference [u]. *)
Definition log_row (p u : vec) : vec :=
  if isclose (norm u) 0 then map (fun _ => 0) u
  else map (fun x => (1 - norm p ^ 2) * arctanh (norm u) * (x / norm u)) u.

End Spec.

(** ** Comparisons and list helpers *)

Lemma ltb_true (x y : R) : ltb x y = true <-> x < y.
Proof. unfold ltb; destruct (Rlt_dec x y); split; intros; easy. Qed.

Lemma ltb_false (x y : R) : ltb x y = false <-> y <= x.
Proof.
  unfold ltb; destruct (Rlt_dec x y); split; intros; try easy; lra.
Qed.

Lemma leb_true (x y : R) : leb x y = true <-> x <= y.
Proof. unfold leb; destruct (Rle_dec x y); split; intros; easy. Qed.

Lemma leb_false (x y : R) : leb x y = false <-> y < x.
Proof.
  unfold leb; destruct (Rle_dec x y); split; intros; try easy; lra.
Qed.

Lemma belongs_row_true (tol : R) (p : vec) :
  PoincareBall.belongs_row tol p = true <-> sum (sq p) < 1 - tol.
Proof. apply ltb_true. Qed.

Lemma belongs_row_false (tol : R) (p : vec) :
  PoincareBall.belongs_row tol p = false <-> 1 - tol <= sum (sq p).
Proof. apply ltb_false. Qed.

Lemma belongs_to_ndarray (x : ndarray) (tol : R) :
  PoincareBall.belongs (Arr2 (to_ndarray x)) tol = PoincareBall.belongs x tol.
Proof. destruct x; reflexivity. Qed.

Lemma all_false_of_In (bs : list bool) : In false bs -> all bs = false.
Proof.
  induction bs as [|b bs IH]; simpl; [easy|].
  intros [->|H]; [reflexivity|].
  rewrite (IH H). apply andb_false_r.
Qed.

Lemma all_belongs_outside (m : batch) (tol : R) :
  (exists p, In p m /\ 1 - tol <= sum (sq p)) ->
  all (map (PoincareBall.belongs_row tol) m) = false.
Proof.
  intros (p & Hin & Hp). apply all_false_of_In.
  apply in_map_iff. exists p. split; [|exact Hin].
  now apply belongs_row_false.
Qed.

Lemma all_belongs_inside (m : batch) (tol : R) :
  all (map (PoincareBall.belongs_row tol) m) = true <->
  (forall p, In p m -> sum (sq p) < 1 - tol).
Proof.
  unfold all. rewrite forallb_forall. split.
  - intros H p Hp. apply belongs_row_true. apply H.
    apply in_map_iff. now exists p.
  - intros H b Hb. apply in_map_iff in Hb as (p & <- & Hp).
    apply belongs_row_true. now apply H.
Qed.

Lemma zip_with_map_l {A A' B C} (f : A' -> B -> C) (g : A -> A')
      (xs : list A) (ys : list B) :
  zip_with f (map g xs) ys = zip_with (fun x y => f (g x) y) xs ys.
Proof.
  revert ys; induction xs as [|x xs IH]; intros [|y ys]; simpl;
    try reflexivity.
  now rewrite IH.
Qed.

Lemma zip_with_map_r {A B B' C} (f : A -> B' -> C) (g : B -> B')
      (xs : list A) (ys : list B) :
  zip_with f xs (map g ys) = zip_with (fun x y => f x (g y)) xs ys.
Proof.
  revert ys; induction xs as [|x xs IH]; intros [|y ys]; simpl;
    try reflexivity.
  now rewrite IH.
Qed.

Lemma map_zip_with {A B C D} (g : C -> D) (f : A -> B -> C)
      (xs : list A) (ys : list B) :
  map g (zip_with f xs ys) = zip_with (fun x y => g (f x y)) xs ys.
Proof.
  revert ys; induction xs as [|x xs IH]; intros [|y ys]; simpl;
    try reflexivity.
  now rewrite IH.
Qed.

Lemma zip_with_ext {A B C} (f g : A -> B -> C) (xs : list A) (ys : list B) :
  (forall x y, In x xs -> In y ys -> f x y = g x y) ->
  zip_with f xs ys = zip_with g xs ys.
Proof.
  revert ys; induction xs as [|x xs IH]; intros [|y ys] H; simpl;
    try reflexivity.
  rewrite H by (now left). rewrite IH; [reflexivity|].
  intros; apply H; now right.
Qed.

Lemma zip_with_diag {A C} (f : A -> A -> C) (xs : list A) :
  zip_with f xs xs = map (fun x => f x x) xs.
Proof. induction xs as [|x xs IH]; simpl; [reflexivity | now rewrite IH]. Qed.

Lemma zip_with_length {A B C} (f : A -> B -> C) (xs : list A) (ys : list B) :
  length (zip_with f xs ys) = Nat.min (length xs) (length ys).
Proof.
  revert ys; induction xs as [|x xs IH]; intros [|y ys]; simpl;
    try reflexivity.
  now rewrite IH.
Qed.

Lemma zip_with_repeat_l {A B C} (f : A -> B -> C) (c : A) (n : nat)
      (ys : list B) :
  (length ys <= n)%nat ->
  zip_with f (repeat c n) ys = map (f c) ys.
Proof.
  revert n; induction ys as [|y ys IH]; intros [|n] H; simpl in *;
    try reflexivity; try lia.
  rewrite IH by lia. reflexivity.
Qed.

(** ** Moebius addition *)

Lemma mobius_add_row_formula (a b : vec) :
  Metric.mobius_add_row a b = Spec.mobius a b.
Proof.
  unfold Metric.mobius_add_row, Spec.mobius.
  rewrite zip_with_map_l, zip_with_map_r, map_zip_with.
  apply zip_with_ext. intros x y _ _. unfold Rdiv. ring.
Qed.

Lemma mobius_add_ok (pa pb : ndarray) :
  Spec.all_in_ball pa -> Spec.all_in_ball pb ->
  Metric.mobius_add pa pb =
  Ok (zip_with Metric.mobius_add_row (to_ndarray pa) (to_ndarray pb)).
Proof.
  unfold Spec.all_in_ball, Metric.mobius_add. intros Ha Hb.
  rewrite !belongs_to_ndarray, Ha, Hb. reflexivity.
Qed.

Lemma mobius_add_raises (pa pb : ndarray) :
  all (PoincareBall.belongs pa TOLERANCE) = false \/
  all (PoincareBall.belongs pb TOLERANCE) = false ->
  Metric.mobius_add pa pb = Raise not_in_ball.
Proof.
  unfold Metric.mobius_add. rewrite !belongs_to_ndarray.
  intros [-> | ->]; [reflexivity|].
  now rewrite orb_true_r.
Qed.

Lemma belongs_outside (x : ndarray) (tol : R) :
  (exists p, In p (to_ndarray x) /\ 1 - tol <= sum (sq p)) ->
  all (PoincareBall.belongs x tol) = false.
Proof.
  intros H. rewrite <- belongs_to_ndarray. simpl.
  now apply all_belongs_outside.
Qed.

Lemma tolerance_pos : 0 < TOLERANCE < 1.
Proof. unfold TOLERANCE; lra. Qed.

(** C1: on points of the ball, [mobius_add] returns the Moebius sum of
    the specification, row by row. *)
Theorem mobius_add_correct (pa pb : ndarray) :
  Spec.all_in_ball pa -> Spec.all_in_ball pb ->
  Metric.mobius_add pa pb =
  Ok (zip_with Spec.mobius (to_ndarray pa) (to_ndarray pb)).
Proof.
  intros Ha Hb. rewrite (mobius_add_ok _ _ Ha Hb). f_equal.
  apply zip_with_ext. intros a b _ _. apply mobius_add_row_formula.
Qed.

Ltac ball :=
  unfold Spec.all_in_ball, Spec.in_ball, PoincareBall.belongs,
    PoincareBall.belongs_row, TOLERANCE, all, sq, sum, ltb;
  simpl;
  repeat match goal with
         | |- context [Rlt_dec ?x ?y] => destruct (Rlt_dec x y); try lra
         end;
  try reflexivity.

Lemma mobius_add_correct_witness :
  Spec.all_in_ball (Arr1 [1/2; 0]) /\ Spec.all_in_ball (Arr1 [0; 1/2]) /\
  Metric.mobius_add (Arr1 [1/2; 0]) (Arr1 [0; 1/2]) =
  Ok [Spec.mobius [1/2; 0] [0; 1/2]].
Proof.
  assert (Ha : Spec.all_in_ball (Arr1 [1/2; 0])) by ball.
  assert (Hb : Spec.all_in_ball (Arr1 [0; 1/2])) by ball.
  split; [exact Ha | split; [exact Hb|]].
  exact (mobius_add_correct (Arr1 [1/2; 0]) (Arr1 [0; 1/2]) Ha Hb).
Defined.

(** ** Domain errors *)

Lemma retraction_raises (tangent_vec base_point : ndarray) :
  all (PoincareBall.belongs base_point TOLERANCE) = false ->
  Metric.retraction tangent_vec base_point = Raise not_in_ball.
Proof. unfold Metric.retraction. now intros ->. Qed.

(** C2: [mobius_add] raises the domain error as soon as a row of either
    input has squared norm at least one, and [retraction] raises the
    same error as soon as a row of [base_point] has; the call returns
    the error and no array. *)
Theorem domain_error :
  (forall pa pb,
      (exists p, (In p (to_ndarray pa) \/ In p (to_ndarray pb)) /\
                 1 <= sum (sq p)) ->
      Metric.mobius_add pa pb = Raise not_in_ball) /\
  (forall tangent_vec base_point,
      (exists p, In p (to_ndarray base_point) /\ 1 <= sum (sq p)) ->
      Metric.retraction tangent_vec base_point = Raise not_in_ball).
Proof.
  pose proof tolerance_pos as Ht. split.
  - intros pa pb (p & [Hin | Hin] & Hp); apply mobius_add_raises;
      [left | right]; apply belongs_outside; exists p; split;
      try exact Hin; lra.
  - intros tv bp (p & Hin & Hp). apply retraction_raises.
    apply belongs_outside. exists p. split; [exact Hin | lra].
Qed.

Lemma domain_error_witness :
  Metric.mobius_add (Arr1 [1; 0]) (Arr1 [0; 0]) = Raise not_in_ball /\
  Metric.retraction (Arr1 [0; 0]) (Arr1 [1; 0]) = Raise not_in_ball.
Proof.
  assert (H : 1 <= sum (sq [1; 0])) by (simpl; lra).
  split.
  - apply (proj1 domain_error). exists [1; 0]. split; [|exact H].
    left. simpl. now left.
  - apply (proj2 domain_error). exists [1; 0]. split; [|exact H].
    simpl. now left.
Defined.

Lemma belongs_fails (x : ndarray) (tol : R) :
  (exists p, In p (to_ndarray x) /\ PoincareBall.belongs_row tol p = false) ->
  all (PoincareBall.belongs x tol) = false.
Proof.
  intros (p & Hin & Hp). apply belongs_outside. exists p.
  split; [exact Hin | now apply belongs_row_false].
Qed.

Lemma sum_sq_opp (p : vec) : sum (sq (map Ropp p)) = sum (sq p).
Proof.
  induction p as [|x p IH]; [reflexivity|].
  change (sum (sq (map Ropp (x :: p))))
    with ((- x) ^ 2 + sum (sq (map Ropp p))).
  change (sum (sq (x :: p))) with (x ^ 2 + sum (sq p)).
  rewrite IH. ring.
Qed.

Lemma belongs_row_opp (tol : R) (p : vec) :
  PoincareBall.belongs_row tol (map Ropp p) = PoincareBall.belongs_row tol p.
Proof. unfold PoincareBall.belongs_row. now rewrite sum_sq_opp. Qed.

(** C9: [exp] raises the domain error when a row of [base_point] fails
    the domain predicate, and [log] raises it when a row of [point] or
    of [base_point] fails it. *)
Theorem exp_log_domain_error :
  (forall tangent_vec base_point,
      (exists p, In p (to_ndarray base_point) /\
                 PoincareBall.belongs_row TOLERANCE p = false) ->
      Metric.exp tangent_vec base_point = Raise not_in_ball) /\
  (forall point base_point,
      (exists p, (In p (to_ndarray point) \/ In p (to_ndarray base_point)) /\
                 PoincareBall.belongs_row TOLERANCE p = false) ->
      Metric.log point base_point = Raise not_in_ball).
Proof.
  split.
  - intros tv bp H. unfold Metric.exp. cbv zeta.
    rewrite mobius_add_raises; [reflexivity|].
    left. now apply belongs_fails.
  - intros pt bp (p & [Hin | Hin] & Hp); unfold Metric.log; cbv zeta;
      (rewrite mobius_add_raises; [reflexivity|]).
    + right. apply belongs_fails. now exists p.
    + left. apply belongs_fails. exists (map Ropp p). split.
      * simpl. now apply in_map.
      * now rewrite belongs_row_opp.
Qed.

Lemma exp_log_domain_error_witness :
  Metric.exp (Arr1 [0; 1]) (Arr1 [1; 0]) = Raise not_in_ball /\
  Metric.log (Arr1 [0; 0]) (Arr1 [1; 0]) = Raise not_in_ball /\
  Metric.log (Arr1 [1; 0]) (Arr1 [0; 0]) = Raise not_in_ball.
Proof.
  assert (H : PoincareBall.belongs_row TOLERANCE [1; 0] = false).
  { apply belongs_row_false. unfold TOLERANCE. simpl. lra. }
  repeat split.
  - apply (proj1 exp_log_domain_error). exists [1; 0].
    split; [simpl; now left | exact H].
  - apply (proj2 exp_log_domain_error). exists [1; 0].
    split; [right; simpl; now left | exact H].
  - apply (proj2 exp_log_domain_error). exists [1; 0].
    split; [left; simpl; now left | exact H].
Defined.

(** ** Retraction *)

Lemma retraction_ok (tangent_vec base_point : ndarray) :
  Spec.all_in_ball base_point ->
  Metric.retraction tangent_vec base_point =
  Ok (zip_with (zip_with Rminus) (to_ndarray base_point)
        (zip_with (zip_with Rmult)
           (map (fun f => repeat f (Metric.shape1 (to_ndarray base_point)))
              (map (fun p => (1 - sum (sq p)) ^ 2 / 4)
                 (to_ndarray base_point)))
           (to_ndarray tangent_vec))).
Proof. unfold Spec.all_in_ball, Metric.retraction. now intros ->. Qed.

Lemma retract_row (f : R) (n : nat) (p t : vec) :
  length p = n ->
  zip_with Rminus p (zip_with Rmult (repeat f n) t) =
  zip_with (fun x y => x - f * y) p t.
Proof.
  intros <-. revert t. induction p as [|x p IH]; intros [|y t]; simpl;
    try reflexivity.
  now rewrite IH.
Qed.

(** C7: on a base point of the ball, [retraction] returns
    [base_point - (1 - |base_point|^2)^2 / 4 * tangent_vec] as it
    stands; the value is not brought back into the ball, and some
    retractions leave it. *)
Theorem retraction_correct :
  (forall tangent_vec base_point : vec,
      Spec.in_ball base_point ->
      Metric.retraction (Arr1 tangent_vec) (Arr1 base_point) =
      Ok [Spec.retract tangent_vec base_point]) /\
  (exists tangent_vec base_point r,
      Spec.in_ball base_point /\
      Metric.retraction (Arr1 tangent_vec) (Arr1 base_point) = Ok [r] /\
      PoincareBall.belongs_row TOLERANCE r = false).
Proof.
  assert (Hf : forall t p, Spec.in_ball p ->
             Metric.retraction (Arr1 t) (Arr1 p) = Ok [Spec.retract t p]).
  { intros t p Hp. rewrite retraction_ok.
    - simpl. now rewrite retract_row.
    - unfold Spec.all_in_ball. simpl. unfold Spec.in_ball in Hp.
      now rewrite Hp. }
  split; [exact Hf|].
  exists [-8], [0], [2].
  assert (H0 : Spec.in_ball [0]) by ball.
  split; [exact H0 | split].
  - rewrite (Hf _ _ H0). unfold Spec.retract. simpl.
    repeat f_equal. lra.
  - apply belongs_row_false. unfold TOLERANCE. simpl. lra.
Qed.

Lemma retraction_correct_witness :
  Spec.in_ball [1/2; 0] /\
  Metric.retraction (Arr1 [1; 1]) (Arr1 [1/2; 0]) =
  Ok [Spec.retract [1; 1] [1/2; 0]].
Proof.
  assert (H : Spec.in_ball [1/2; 0]) by ball.
  split; [exact H|].
  exact (proj1 retraction_correct [1; 1] [1/2; 0] H).
Defined.

(** ** Inner-product matrix *)

Lemma sum_self_prod (p : vec) : sum (zip_with Rmult p p) = sum (sq p).
Proof.
  rewrite zip_with_diag. unfold sq. f_equal.
  apply map_ext. intros x. simpl. ring.
Qed.

Lemma sum_sq_zeros (n : nat) : sum (sq (repeat 0 n)) = 0.
Proof.
  induction n as [|n IH]; [reflexivity|].
  change (sum (sq (repeat 0 (S n)))) with (0 ^ 2 + sum (sq (repeat 0 n))).
  rewrite IH. simpl. ring.
Qed.

Lemma zip_with_map_repeat {A B C D} (g : B -> C -> D) (f : A -> B) (c : C)
      (xs : list A) :
  zip_with g (map f xs) (repeat c (length xs)) = map (fun x => g (f x) c) xs.
Proof. induction xs as [|x xs IH]; simpl; [reflexivity | now rewrite IH]. Qed.

Lemma eye_length (d : nat) : length (eye d) = d.
Proof. unfold eye. now rewrite length_map, length_seq. Qed.

Lemma scale_eye (l : R) (d : nat) :
  zip_with (zip_with xmul) (repeat (repeat (Fin l) d) d) (eye d) =
  map (map Fin) (Spec.scaled_identity l d).
Proof.
  rewrite zip_with_repeat_l by (rewrite eye_length; lia).
  unfold eye, Spec.scaled_identity. rewrite !map_map.
  apply map_ext. intros i.
  rewrite zip_with_repeat_l by (rewrite length_map, length_seq; lia).
  rewrite !map_map. apply map_ext. intros j.
  destruct (Nat.eqb i j); simpl; f_equal; ring.
Qed.

Lemma xdiv_finite (x y : R) : y <> 0 -> xdiv x y = Fin (x / y).
Proof.
  intros Hy. unfold xdiv. destruct (Req_dec_T y 0); [contradiction|].
  reflexivity.
Qed.

Lemma xdiv_zero (x : R) : 0 < x -> xdiv x 0 = PInf.
Proof.
  intros Hx. unfold xdiv.
  destruct (Req_dec_T 0 0) as [_ | H]; [|contradiction].
  destruct (Req_dec_T x 0); [lra|].
  destruct (Rlt_dec 0 x); [reflexivity | contradiction].
Qed.

Lemma inner_product_matrix_rows (self : PoincareBallMetric) (m : batch) :
  (forall p, In p m -> length p = dimension self) ->
  (forall p, In p m -> sum (sq p) <> 1) ->
  Metric.inner_product_matrix self (Some m) =
  map (fun p =>
         map (map Fin)
             (Spec.scaled_identity (Spec.lambda p ^ 2) (dimension self))) m.
Proof.
  intros Hdim Hns. unfold Metric.inner_product_matrix.
  rewrite map_map, zip_with_map_repeat.
  destruct m as [|p0 m]; [reflexivity|].
  assert (Hs : Metric.shape1 (p0 :: m) = dimension self).
  { simpl. apply Hdim. now left. }
  rewrite Hs. apply map_ext_in. intros p Hp.
  rewrite sum_self_prod, xdiv_finite by (specialize (Hns p Hp); lra).
  cbn [xsqr]. rewrite scale_eye. reflexivity.
Qed.

(** C8, as amended: for every row [p] of a [base_point] of the metric's
    dimension whose squared norm is not one, inside the ball or not (the
    function has no error result), [inner_product_matrix] returns
    [lambda(p)^2 * I_d]; it returns [4 * I_d] when [base_point] is
    omitted. *)
Theorem inner_product_matrix_correct (self : PoincareBallMetric) :
  (forall m : batch,
      (forall p, In p m -> length p = dimension self) ->
      (forall p, In p m -> sum (sq p) <> 1) ->
      Metric.inner_product_matrix self (Some m) =
      map (fun p =>
             map (map Fin)
                 (Spec.scaled_identity (Spec.lambda p ^ 2)
                    (dimension self))) m) /\
  Metric.inner_product_matrix self None =
  [map (map Fin) (Spec.scaled_identity 4 (dimension self))].
Proof.
  split; [apply inner_product_matrix_rows|].
  change (Metric.inner_product_matrix self None)
    with (Metric.inner_product_matrix self
            (Some (zeros (dimension self)))).
  rewrite inner_product_matrix_rows.
  - simpl. unfold Spec.lambda. rewrite sum_sq_zeros.
    repeat f_equal. field.
  - intros p [<- | []]. apply repeat_length.
  - intros p [<- | []]. rewrite sum_sq_zeros. lra.
Qed.

Lemma inner_product_matrix_correct_witness :
  Metric.inner_product_matrix {| dimension := 2; scale := 1 |} None =
  [[[Fin 4; Fin 0]; [Fin 0; Fin 4]]] /\
  Metric.inner_product_matrix {| dimension := 2; scale := 1 |}
    (Some [[1/2; 0]; [0; 2]]) =
  [map (map Fin) (Spec.scaled_identity (Spec.lambda [1/2; 0] ^ 2) 2);
   map (map Fin) (Spec.scaled_identity (Spec.lambda [0; 2] ^ 2) 2)].
Proof.
  split.
  - exact (proj2 (inner_product_matrix_correct
                    {| dimension := 2; scale := 1 |})).
  - apply (proj1 (inner_product_matrix_correct
                    {| dimension := 2; scale := 1 |})).
    + intros p [<- | [<- | []]]; reflexivity.
    + intros p [<- | [<- | []]]; simpl; lra.
Defined.

(** C8 as first stated fails on the unit sphere: at the base point
    [(1, 0)] the division is by zero, the diagonal of the result is
    infinite and the rest is not a number, so the result is no real
    multiple of the identity. *)
Lemma inner_product_matrix_singular :
  Metric.inner_product_matrix {| dimension := 2; scale := 1 |}
    (Some [[1; 0]]) = [[[PInf; NaN]; [NaN; PInf]]] /\
  forall c : R,
    Metric.inner_product_matrix {| dimension := 2; scale := 1 |}
      (Some [[1; 0]]) <> [map (map Fin) (Spec.scaled_identity c 2)].
Proof.
  assert (E : Metric.inner_product_matrix {| dimension := 2; scale := 1 |}
                (Some [[1; 0]]) = [[[PInf; NaN]; [NaN; PInf]]]).
  { unfold Metric.inner_product_matrix, eye. cbv zeta.
    cbn [dimension map Metric.shape1 length repeat zip_with sum fold_right
         seq Nat.eqb].
    replace (1 - (1 * 1 + (0 * 0 + 0))) with 0 by ring.
    rewrite xdiv_zero by lra. cbn [xsqr zip_with].
    unfold xmul.
    destruct (Req_dec_T 1 0) as [H | _]; [lra|].
    destruct (Req_dec_T 0 0) as [_ | H]; [|contradiction].
    destruct (Rlt_dec 0 1) as [_ | H]; [reflexivity | lra]. }
  split; [exact E|].
  intros c. rewrite E. discriminate.
Qed.

(** ** Exponential map at the zero vector *)

Lemma isclose_refl_0 : isclose 0 0 = true.
Proof.
  unfold isclose. apply leb_true. unfold atol, rtol.
  rewrite Rminus_0_r, Rabs_R0. lra.
Qed.

Lemma zip_with_zeros (n : nat) :
  sum (zip_with Rmult (repeat 0 n) (repeat 0 n)) = 0.
Proof. rewrite sum_self_prod. apply sum_sq_zeros. Qed.

Lemma map_zeros (c : R) (n : nat) :
  map (fun x => x * c) (repeat 0 n) = repeat 0 n.
Proof.
  induction n as [|n IH]; simpl; [reflexivity|].
  rewrite IH. f_equal. ring.
Qed.

Lemma in_ball_zeros (n : nat) : Spec.in_ball (repeat 0 n).
Proof.
  apply belongs_row_true. rewrite sum_sq_zeros. unfold TOLERANCE. lra.
Qed.

Lemma all_in_ball_single (p : vec) :
  Spec.in_ball p -> Spec.all_in_ball (Arr2 [p]).
Proof.
  unfold Spec.in_ball, Spec.all_in_ball. simpl. now intros ->.
Qed.

(** C3: at a base point of the ball, [exp] of the zero tangent vector
    is the base point itself: the row computed through the epsilon
    guard is replaced by the row of [base_point]. *)
Theorem exp_zero (base_point : vec) :
  Spec.in_ball base_point ->
  Metric.exp (Arr1 (repeat 0 (length base_point))) (Arr1 base_point) =
  Ok [base_point].
Proof.
  intros Hp. unfold Metric.exp. cbv zeta. cbn [to_ndarray].
  unfold Metric.zero_mask. cbn [map]. rewrite zip_with_zeros, isclose_refl_0.
  cbn [any existsb orb select fill length Nat.eqb negb zip_with map].
  rewrite !map_zeros.
  rewrite mobius_add_ok
    by (apply all_in_ball_single; first [exact Hp | apply in_ball_zeros]).
  cbn [to_ndarray zip_with select length Nat.eqb negb assign].
  reflexivity.
Qed.

Lemma exp_zero_witness :
  Spec.in_ball [1/2; 0] /\
  Metric.exp (Arr1 [0; 0]) (Arr1 [1/2; 0]) = Ok [[1/2; 0]].
Proof.
  assert (H : Spec.in_ball [1/2; 0]) by ball.
  split; [exact H | exact (exp_zero [1/2; 0] H)].
Defined.

(** ** Logarithm map at the base point *)

Lemma dot_opp_l (a b : vec) : dot (map Ropp a) b = - dot a b.
Proof.
  unfold dot, sum. revert b.
  induction a as [|x a IH]; intros [|y b]; simpl; try ring.
  rewrite IH. ring.
Qed.

Lemma dot_self (p : vec) : dot p p = sum (sq p).
Proof. apply sum_self_prod. Qed.

Lemma map_const_zero {A} (xs : list A) :
  map (fun _ => 0) xs = repeat 0 (length xs).
Proof. induction xs as [|x xs IH]; simpl; [reflexivity | now rewrite IH]. Qed.

Lemma mobius_add_row_opp (p : vec) :
  Metric.mobius_add_row (map Ropp p) p = repeat 0 (length p).
Proof.
  rewrite mobius_add_row_formula. unfold Spec.mobius.
  rewrite dot_opp_l, dot_self, sum_sq_opp, zip_with_map_l, zip_with_diag.
  rewrite <- map_const_zero. apply map_ext. intros x.
  unfold Rdiv. ring.
Qed.

Lemma norm_zeros (n : nat) : norm (repeat 0 n) = 0.
Proof. unfold norm. rewrite sum_sq_zeros. apply sqrt_0. Qed.

Lemma in_ball_opp (p : vec) : Spec.in_ball p -> Spec.in_ball (map Ropp p).
Proof. unfold Spec.in_ball. now rewrite belongs_row_opp. Qed.

(** C4: at a base point of the ball, [log] of the base point itself is
    the zero vector: the Moebius difference has norm zero and its row
    is overwritten with zeros. *)
Theorem log_same_point (base_point : vec) :
  Spec.in_ball base_point ->
  Metric.log (Arr1 base_point) (Arr1 base_point) =
  Ok [repeat 0 (length base_point)].
Proof.
  intros Hp. unfold Metric.log. cbv zeta. cbn [to_ndarray map].
  rewrite mobius_add_ok
    by (apply all_in_ball_single; first [exact Hp | now apply in_ball_opp]).
  cbn [to_ndarray zip_with map]. rewrite mobius_add_row_opp, norm_zeros.
  rewrite isclose_refl_0. cbn [any existsb orb zip_with].
  rewrite map_const_zero, !length_map, repeat_length. reflexivity.
Qed.

Lemma log_same_point_witness :
  Spec.in_ball [1/2; 0] /\
  Metric.log (Arr1 [1/2; 0]) (Arr1 [1/2; 0]) = Ok [[0; 0]].
Proof.
  assert (H : Spec.in_ball [1/2; 0]) by ball.
  split; [exact H | exact (log_same_point [1/2; 0] H)].
Defined.

(** ** Large tangent vectors *)

Lemma tanh_exp (x : R) :
  tanh x = (Rtrigo_def.exp x ^ 2 - 1) / (Rtrigo_def.exp x ^ 2 + 1).
Proof.
  unfold tanh, sinh, cosh. rewrite exp_Ropp.
  pose proof (exp_pos x) as He. field. nra.
Qed.

Lemma tanh_sq_large (x : R) :
  10000 <= x -> 1 - TOLERANCE <= tanh x ^ 2.
Proof.
  intros Hx. rewrite tanh_exp.
  pose proof (exp_ineq1 x ltac:(lra)) as He.
  set (E := Rtrigo_def.exp x ^ 2).
  assert (HE : 100000000 <= E) by (unfold E; nra).
  assert (Hq : 1 - 2 / 100000000 <= (E - 1) / (E + 1)).
  { apply Rle_trans with (1 - 2 / (E + 1)).
    - apply Rplus_le_compat_l, Ropp_le_contravar.
      unfold Rdiv. apply Rmult_le_compat_l; [lra|].
      apply Rinv_le_contravar; lra.
    - right. field. lra. }
  unfold TOLERANCE. nra.
Qed.

Lemma norm_single (x : R) : 0 <= x -> norm [x] = x.
Proof.
  intros Hx. unfold norm. simpl.
  replace (x * (x * 1) + 0) with (x * x) by ring.
  now apply sqrt_square.
Qed.

Lemma isclose_0_false (x : R) : atol < Rabs x -> isclose x 0 = false.
Proof.
  intros Hx. unfold isclose. apply leb_false.
  rewrite Rminus_0_r, Rabs_R0. lra.
Qed.

(** C10: [exp] is partial on the ball: at the origin of the line, the
    tangent vector [10000] gives the operand [tanh 10000], whose square
    is at least [1 - TOLERANCE], so the domain check of [mobius_add]
    fails and [exp] raises. *)
Theorem exp_not_total :
  exists tangent_vec base_point : vec,
    Spec.in_ball base_point /\
    Metric.exp (Arr1 tangent_vec) (Arr1 base_point) = Raise not_in_ball.
Proof.
  exists [10000], [0]. split; [ball|].
  unfold Metric.exp. cbv zeta. cbn [to_ndarray].
  unfold Metric.zero_mask. cbn [map zip_with sum fold_right].
  rewrite isclose_0_false
    by (unfold atol; rewrite Rabs_pos_eq; lra).
  cbn [any existsb orb zip_with map].
  rewrite !norm_single by lra.
  rewrite mobius_add_raises; [reflexivity|].
  right. apply belongs_outside. eexists. split; [left; reflexivity|].
  pose proof (tanh_sq_large 10000 ltac:(lra)) as Ht.
  replace (1 / (1 - 0 ^ 2) * 10000) with 10000 by field.
  replace (10000 * (1 / 10000)) with 1 by field.
  simpl. simpl in Ht. lra.
Qed.

(** ** Geodesic distance *)

Lemma quad_discr (A B C : R) :
  0 <= C ->
  (forall t, 0 <= A + 2 * B * t + C * t ^ 2) ->
  B ^ 2 <= A * C.
Proof.
  intros HC H.
  assert (HA : 0 <= A) by (specialize (H 0); lra).
  destruct (Req_dec C 0) as [-> | HC0].
  - destruct (Req_dec B 0) as [-> | HB]; [lra|].
    specialize (H (- (A + 1) / (2 * B))).
    replace (A + 2 * B * (- (A + 1) / (2 * B)) +
             0 * (- (A + 1) / (2 * B)) ^ 2) with (-1) in H by (field; exact HB).
    lra.
  - specialize (H (- B / C)).
    replace (A + 2 * B * (- B / C) + C * (- B / C) ^ 2)
      with ((A * C - B ^ 2) / C) in H by (field; exact HC0).
    assert (HCp : 0 < C) by lra.
    apply (Rmult_le_compat_r C) in H; [|lra].
    replace ((A * C - B ^ 2) / C * C) with (A * C - B ^ 2) in H
      by (field; exact HC0).
    lra.
Qed.

Section Lorentz.

Variables X0 Y0 Z0 xy xz yz : R.
Hypothesis HY : 1 <= Y0.
Hypothesis HZ : 1 <= Z0.
Hypothesis psd : forall al be ga : R,
    0 <= al ^ 2 * (X0 ^ 2 - 1) + be ^ 2 * (Y0 ^ 2 - 1) +
         ga ^ 2 * (Z0 ^ 2 - 1) +
         2 * al * be * xy + 2 * al * ga * xz + 2 * be * ga * yz.

Let p := X0 * Y0 - xy.
Let q := Y0 * Z0 - yz.
Let r := X0 * Z0 - xz.

Lemma lorentz_quadratic (t : R) :
  0 <= (p ^ 2 - 1) + 2 * (p * q - r) * t + (q ^ 2 - 1) * t ^ 2.
Proof.
  set (be := - (p + t * q)).
  set (w2 := 1 ^ 2 * (X0 ^ 2 - 1) + be ^ 2 * (Y0 ^ 2 - 1) +
             t ^ 2 * (Z0 ^ 2 - 1) +
             2 * 1 * be * xy + 2 * 1 * t * xz + 2 * be * t * yz).
  set (wy := xy + be * (Y0 ^ 2 - 1) + t * yz).
  set (W0 := X0 + t * Z0 + be * Y0).
  assert (Hw2 : 0 <= w2) by apply psd.
  assert (Horth : W0 * Y0 = wy).
  { unfold W0, wy, be, p, q. ring. }
  assert (HQ : (p ^ 2 - 1) + 2 * (p * q - r) * t + (q ^ 2 - 1) * t ^ 2 =
               w2 - W0 ^ 2).
  { unfold w2, W0, be, p, q, r. ring. }
  assert (Hcs : wy ^ 2 <= w2 * (Y0 ^ 2 - 1)).
  { apply quad_discr; [nra|]. intros mu.
    pose proof (psd 1 (be + mu) t) as Hm.
    unfold w2, wy. nra. }
  rewrite HQ. rewrite <- Horth in Hcs.
  assert (HY2 : 1 <= Y0 ^ 2) by nra.
  nra.
Qed.

Lemma lorentz_gram :
  (r - p * q) ^ 2 <= (p ^ 2 - 1) * (q ^ 2 - 1).
Proof.
  assert (Hq : 0 <= q ^ 2 - 1).
  { pose proof (quad_discr (Y0 ^ 2 - 1) yz (Z0 ^ 2 - 1)) as H.
    assert (H1 : yz ^ 2 <= (Y0 ^ 2 - 1) * (Z0 ^ 2 - 1)).
    { apply H; [nra|]. intros t. pose proof (psd 0 1 t). nra. }
    unfold q.
    assert (Hyz : yz <= Y0 * Z0 - 1).
    { assert (H2 : 0 <= (Y0 * Z0 - 1) ^ 2 - yz ^ 2).
      { pose proof (pow2_ge_0 (Y0 - Z0)). nra. }
      assert (H3 : 0 <= Y0 * Z0 - 1) by nra.
      destruct (Rle_dec yz (Y0 * Z0 - 1)) as [Hle | Hgt]; [exact Hle|].
      exfalso. nra. }
    assert (H4 : 1 <= Y0 * Z0 - yz) by lra.
    nra. }
  replace ((r - p * q) ^ 2) with ((p * q - r) ^ 2) by ring.
  apply quad_discr; [exact Hq | apply lorentz_quadratic].
Qed.

End Lorentz.

(** The inverse hyperbolic cosine as [dist] writes it. *)
Lemma arcosh_arg_pos (t : R) : 1 <= t -> 1 <= t + sqrt (t ^ 2 - 1).
Proof. intros Ht. pose proof (sqrt_pos (t ^ 2 - 1)). lra. Qed.

Lemma arcosh_triangle (p q r : R) :
  1 <= p -> 1 <= q -> 1 <= r ->
  (r - p * q) ^ 2 <= (p ^ 2 - 1) * (q ^ 2 - 1) ->
  ln (r + sqrt (r ^ 2 - 1)) <=
  ln (p + sqrt (p ^ 2 - 1)) + ln (q + sqrt (q ^ 2 - 1)).
Proof.
  intros Hp Hq Hr H.
  assert (Hp2 : 0 <= p ^ 2 - 1) by nra.
  assert (Hq2 : 0 <= q ^ 2 - 1) by nra.
  assert (Hr2 : 0 <= r ^ 2 - 1) by nra.
  pose proof (sqrt_pos (p ^ 2 - 1)) as Hsp.
  pose proof (sqrt_pos (q ^ 2 - 1)) as Hsq.
  pose proof (sqrt_pos (r ^ 2 - 1)) as Hsr.
  pose proof (sqrt_sqrt _ Hp2) as Ep.
  pose proof (sqrt_sqrt _ Hq2) as Eq.
  pose proof (sqrt_sqrt _ Hr2) as Er.
  set (sp := sqrt (p ^ 2 - 1)) in *.
  set (sq' := sqrt (q ^ 2 - 1)) in *.
  set (sr := sqrt (r ^ 2 - 1)) in *.
  assert (Hpq : 0 <= sp * sq') by nra.
  assert (H1 : r - p * q <= sp * sq').
  { destruct (Rle_dec (r - p * q) (sp * sq')) as [Hle | Hgt]; [exact Hle|].
    exfalso.
    assert ((sp * sq') ^ 2 = (p ^ 2 - 1) * (q ^ 2 - 1)) by nra.
    nra. }
  assert (H2 : sr <= p * sq' + q * sp).
  { assert (Hrhs : 0 <= p * sq' + q * sp) by nra.
    assert (Hsq2 : sr ^ 2 <= (p * sq' + q * sp) ^ 2).
    { assert (Hr_le : r <= p * q + sp * sq') by lra.
      assert (r ^ 2 <= (p * q + sp * sq') ^ 2) by nra.
      nra. }
    destruct (Rle_dec sr (p * sq' + q * sp)) as [Hle | Hgt]; [exact Hle|].
    exfalso. nra. }
  rewrite <- ln_mult by lra.
  assert (Hle : r + sr <= (p + sp) * (q + sq')) by nra.
  destruct Hle as [Hlt | Heq].
  - left. apply ln_increasing; lra.
  - right. now rewrite Heq.
Qed.

Lemma arcosh_zero (t : R) :
  1 <= t -> ln (t + sqrt (t ^ 2 - 1)) = 0 -> t = 1.
Proof.
  intros Ht H.
  pose proof (sqrt_pos (t ^ 2 - 1)) as Hs.
  rewrite <- ln_1 in H. apply ln_inv in H; lra.
Qed.

Lemma arcosh_one : ln (1 + sqrt (1 ^ 2 - 1)) = 0.
Proof.
  replace (1 ^ 2 - 1) with 0 by ring.
  rewrite sqrt_0, Rplus_0_r. apply ln_1.
Qed.

Lemma arcosh_nonneg (t : R) : 1 <= t -> 0 <= ln (t + sqrt (t ^ 2 - 1)).
Proof.
  intros Ht. pose proof (arcosh_arg_pos t Ht) as [Hlt | Heq].
  - left. rewrite <- ln_1. apply ln_increasing; lra.
  - right. now rewrite <- Heq, ln_1.
Qed.

Lemma sum_cons (x : R) (v : vec) : sum (x :: v) = x + sum v.
Proof. reflexivity. Qed.

Lemma sq_cons (x : R) (v : vec) : sq (x :: v) = x ^ 2 :: sq v.
Proof. reflexivity. Qed.

Lemma dot_cons (x y : R) (a b : vec) :
  dot (x :: a) (y :: b) = x * y + dot a b.
Proof. reflexivity. Qed.

Lemma sum_sq_nonneg (a : vec) : 0 <= sum (sq a).
Proof.
  induction a as [|x a IH]; [simpl; lra|].
  rewrite sq_cons, sum_cons. pose proof (pow2_ge_0 x). lra.
Qed.

Lemma sum_sq_diff (a b : vec) :
  length a = length b ->
  sum (sq (zip_with Rminus a b)) = sum (sq a) - 2 * dot a b + sum (sq b).
Proof.
  revert b. induction a as [|x a IH]; intros [|y b] Hl; try discriminate.
  - unfold dot. simpl. ring.
  - injection Hl as Hl. cbn [zip_with].
    rewrite !sq_cons, !sum_cons, dot_cons, (IH b Hl). ring.
Qed.

Lemma sum_sq_diff_sym (a b : vec) :
  sum (sq (zip_with Rminus a b)) = sum (sq (zip_with Rminus b a)).
Proof.
  revert b. induction a as [|x a IH]; intros [|y b]; try reflexivity.
  cbn [zip_with]. rewrite !sq_cons, !sum_cons, (IH b). ring.
Qed.

Lemma sum_sq_diff_self (a : vec) : sum (sq (zip_with Rminus a a)) = 0.
Proof.
  induction a as [|x a IH]; [reflexivity|].
  cbn [zip_with]. rewrite sq_cons, sum_cons, IH. ring.
Qed.

Lemma sum_sq_diff_zero (a b : vec) :
  length a = length b ->
  sum (sq (zip_with Rminus a b)) = 0 -> a = b.
Proof.
  revert b. induction a as [|x a IH]; intros [|y b] Hl; try discriminate.
  - reflexivity.
  - injection Hl as Hl. cbn [zip_with]. rewrite sq_cons, sum_cons.
    intros H.
    pose proof (sum_sq_nonneg (zip_with Rminus a b)) as Hn.
    pose proof (pow2_ge_0 (x - y)) as Hx.
    assert (Hxy : (x - y) ^ 2 = 0) by lra.
    assert (Hr : sum (sq (zip_with Rminus a b)) = 0) by lra.
    f_equal; [nra | now apply IH].
Qed.

Lemma gram_psd (a b c : vec) :
  length a = length b -> length b = length c ->
  forall al be ga : R,
    0 <= al ^ 2 * sum (sq a) + be ^ 2 * sum (sq b) + ga ^ 2 * sum (sq c) +
         2 * al * be * dot a b + 2 * al * ga * dot a c +
         2 * be * ga * dot b c.
Proof.
  revert b c. induction a as [|x a IH]; intros [|y b] [|z c] Hab Hbc al be ga;
    try discriminate.
  - unfold dot. simpl. lra.
  - injection Hab as Hab. injection Hbc as Hbc.
    specialize (IH b c Hab Hbc al be ga).
    rewrite !sq_cons, !sum_cons, !dot_cons.
    pose proof (pow2_ge_0 (al * x + be * y + ga * z)). nra.
Qed.

Lemma in_ball_lt (p : vec) : Spec.in_ball p <-> sum (sq p) < 1 - TOLERANCE.
Proof. apply belongs_row_true. Qed.

Lemma clip_bounds (x : R) :
  0 <= clip x 0 (1 - EPSILON) <= 1 - EPSILON.
Proof.
  unfold clip, EPSILON, Rmin, Rmax.
  destruct (Rle_dec x 0); destruct (Rle_dec _ _); lra.
Qed.

Lemma clip_in_ball (p : vec) :
  Spec.in_ball p -> clip (sum (sq p)) 0 (1 - EPSILON) = sum (sq p).
Proof.
  intros Hp%in_ball_lt. pose proof (sum_sq_nonneg p) as Hn.
  unfold clip, EPSILON, TOLERANCE, Rmin, Rmax in *.
  destruct (Rle_dec (sum (sq p)) 0); destruct (Rle_dec _ _); lra.
Qed.

(** The argument of the inverse hyperbolic cosine in [dist]. *)
Lemma dist_arg_ge_1 (a b : vec) :
  1 <= 1 + 2 * sum (sq (zip_with Rminus a b)) /
           ((1 - clip (sum (sq a)) 0 (1 - EPSILON)) *
            (1 - clip (sum (sq b)) 0 (1 - EPSILON))).
Proof.
  pose proof (clip_bounds (sum (sq a))) as Ha.
  pose proof (clip_bounds (sum (sq b))) as Hb.
  pose proof (sum_sq_nonneg (zip_with Rminus a b)) as Hd.
  unfold EPSILON in *.
  set (ca := clip (sum (sq a)) _ _) in *.
  set (cb := clip (sum (sq b)) _ _) in *.
  assert (Hden : 0 < (1 - ca) * (1 - cb))
    by (apply Rmult_lt_0_compat; lra).
  assert (0 <= 2 * sum (sq (zip_with Rminus a b)) / ((1 - ca) * (1 - cb))).
  { apply Rmult_le_pos; [lra|]. left. now apply Rinv_0_lt_compat. }
  lra.
Qed.

Lemma dist_single (self : PoincareBallMetric) (a b : vec) :
  Metric.dist self (Arr1 a) (Arr1 b) =
  [[Metric.dist_row a b * scale self]].
Proof. reflexivity. Qed.

Lemma dist_row_self (p : vec) : Metric.dist_row p p = 0.
Proof.
  unfold Metric.dist_row. cbv zeta. rewrite sum_sq_diff_self.
  unfold Rdiv. rewrite Rmult_0_r, Rmult_0_l, Rplus_0_r.
  apply arcosh_one.
Qed.

Lemma dist_row_sym (a b : vec) : Metric.dist_row a b = Metric.dist_row b a.
Proof.
  unfold Metric.dist_row. cbv zeta.
  rewrite (sum_sq_diff_sym a b).
  rewrite (Rmult_comm (1 - clip (sum (sq a)) 0 (1 - EPSILON))).
  reflexivity.
Qed.

Lemma dist_row_nonneg (a b : vec) : 0 <= Metric.dist_row a b.
Proof. apply arcosh_nonneg, dist_arg_ge_1. Qed.

Lemma dist_row_zero (a b : vec) :
  length a = length b -> Metric.dist_row a b = 0 -> a = b.
Proof.
  intros Hl H. apply sum_sq_diff_zero; [exact Hl|].
  apply arcosh_zero in H; [|apply dist_arg_ge_1].
  pose proof (clip_bounds (sum (sq a))) as Ha.
  pose proof (clip_bounds (sum (sq b))) as Hb.
  unfold EPSILON in *.
  set (ca := clip (sum (sq a)) _ _) in *.
  set (cb := clip (sum (sq b)) _ _) in *.
  set (d := sum (sq (zip_with Rminus a b))) in *.
  assert (Hden : 0 < (1 - ca) * (1 - cb)) by nra.
  assert (Hq : 2 * d / ((1 - ca) * (1 - cb)) = 0) by lra.
  apply (f_equal (fun x => x * ((1 - ca) * (1 - cb)))) in Hq.
  replace (2 * d / ((1 - ca) * (1 - cb)) * ((1 - ca) * (1 - cb)))
    with (2 * d) in Hq by (field; lra).
  lra.
Qed.

Lemma zip_with_comm {A C} (f : A -> A -> C) (xs ys : list A) :
  (forall x y, f x y = f y x) -> zip_with f xs ys = zip_with f ys xs.
Proof.
  intros Hf. revert ys. induction xs as [|x xs IH]; intros [|y ys]; simpl;
    try reflexivity.
  now rewrite Hf, IH.
Qed.

(** The argument of the inverse hyperbolic cosine, on points of the
    ball, through the coordinates of the hyperboloid. *)
Lemma dist_arg_in_ball (a b : vec) :
  Spec.in_ball a -> Spec.in_ball b -> length a = length b ->
  1 + 2 * sum (sq (zip_with Rminus a b)) /
      ((1 - clip (sum (sq a)) 0 (1 - EPSILON)) *
       (1 - clip (sum (sq b)) 0 (1 - EPSILON))) =
  (1 + sum (sq a)) / (1 - sum (sq a)) *
  ((1 + sum (sq b)) / (1 - sum (sq b))) -
  2 / (1 - sum (sq a)) * (2 / (1 - sum (sq b))) * dot a b.
Proof.
  intros Ha Hb Hl.
  rewrite (clip_in_ball a Ha), (clip_in_ball b Hb), (sum_sq_diff a b Hl).
  apply in_ball_lt in Ha, Hb. unfold TOLERANCE in *.
  field; lra.
Qed.

Lemma hyperboloid_psd (a b c : vec) :
  Spec.in_ball a -> Spec.in_ball b -> Spec.in_ball c ->
  length a = length b -> length b = length c ->
  forall al be ga : R,
    0 <= al ^ 2 * (((1 + sum (sq a)) / (1 - sum (sq a))) ^ 2 - 1) +
         be ^ 2 * (((1 + sum (sq b)) / (1 - sum (sq b))) ^ 2 - 1) +
         ga ^ 2 * (((1 + sum (sq c)) / (1 - sum (sq c))) ^ 2 - 1) +
         2 * al * be *
           (2 / (1 - sum (sq a)) * (2 / (1 - sum (sq b))) * dot a b) +
         2 * al * ga *
           (2 / (1 - sum (sq a)) * (2 / (1 - sum (sq c))) * dot a c) +
         2 * be * ga *
           (2 / (1 - sum (sq b)) * (2 / (1 - sum (sq c))) * dot b c).
Proof.
  intros Ha Hb Hc Hab Hbc al be ga.
  pose proof (gram_psd a b c Hab Hbc
                (al * (2 / (1 - sum (sq a))))
                (be * (2 / (1 - sum (sq b))))
                (ga * (2 / (1 - sum (sq c))))) as H.
  apply in_ball_lt in Ha, Hb, Hc. unfold TOLERANCE in *.
  match goal with
  | |- 0 <= ?g => match type of H with 0 <= ?h =>
      replace g with h; [exact H | field; lra] end
  end.
Qed.

Lemma hyperboloid_height (a : vec) :
  Spec.in_ball a -> 1 <= (1 + sum (sq a)) / (1 - sum (sq a)).
Proof.
  intros Ha%in_ball_lt. pose proof (sum_sq_nonneg a) as Hn.
  unfold TOLERANCE in *.
  apply Rmult_le_reg_r with (1 - sum (sq a)); [lra|].
  replace ((1 + sum (sq a)) / (1 - sum (sq a)) * (1 - sum (sq a)))
    with (1 + sum (sq a)) by (field; lra).
  lra.
Qed.

Lemma dist_row_triangle (a b c : vec) :
  Spec.in_ball a -> Spec.in_ball b -> Spec.in_ball c ->
  length a = length b -> length b = length c ->
  Metric.dist_row a c <= Metric.dist_row a b + Metric.dist_row b c.
Proof.
  intros Ha Hb Hc Hab Hbc.
  assert (Hac : length a = length c) by congruence.
  unfold Metric.dist_row. cbv zeta.
  apply arcosh_triangle; try apply dist_arg_ge_1.
  rewrite (dist_arg_in_ball a b Ha Hb Hab), (dist_arg_in_ball b c Hb Hc Hbc),
    (dist_arg_in_ball a c Ha Hc Hac).
  apply lorentz_gram.
  - now apply hyperboloid_height.
  - now apply hyperboloid_height.
  - now apply hyperboloid_psd.
Qed.

Lemma dist_rows (self : PoincareBallMetric) (x y : ndarray) :
  Metric.dist self x y =
  map (fun d => [d * scale self])
      (zip_with Metric.dist_row (to_ndarray x) (to_ndarray y)).
Proof. reflexivity. Qed.

(** X1: [dist] of an array with itself is zero on every row, for points
    inside the ball or not. *)
Theorem dist_self_zero (self : PoincareBallMetric) (x : ndarray) :
  Metric.dist self x x = map (fun _ => [0]) (to_ndarray x).
Proof.
  rewrite dist_rows, zip_with_diag, map_map. apply map_ext.
  intros p. rewrite dist_row_self. f_equal. ring.
Qed.

(** X2: [dist] is symmetric in its two arguments, on single points and
    on batches. *)
Theorem dist_symmetric (self : PoincareBallMetric) (x y : ndarray) :
  Metric.dist self x y = Metric.dist self y x.
Proof.
  rewrite !dist_rows. f_equal. apply zip_with_comm, dist_row_sym.
Qed.

(** X3: [dist] is the distance of the metric of scale one, multiplied
    by [scale]. *)
Theorem dist_scale_linear (self : PoincareBallMetric) (x y : ndarray) :
  Metric.dist self x y =
  map (map (fun d => d * scale self))
      (Metric.dist {| dimension := dimension self; scale := 1 |} x y).
Proof.
  rewrite !dist_rows, map_map. apply map_ext. intros d. simpl.
  f_equal. ring.
Qed.

(** X4: when [scale] is not zero, [dist] of two points of the same
    dimension is zero exactly when the points are equal. *)
Theorem dist_zero_iff_equal (self : PoincareBallMetric) (a b : vec) :
  scale self <> 0 -> length a = length b ->
  (Metric.dist self (Arr1 a) (Arr1 b) = [[0]] <-> a = b).
Proof.
  intros Hs Hl. rewrite dist_single. split.
  - intros H. injection H as H. apply dist_row_zero; [exact Hl|].
    apply Rmult_integral in H. destruct H as [H | H]; [exact H | easy].
  - intros <-. rewrite dist_row_self. do 2 f_equal. ring.
Qed.

(** X5: on points of the ball and for a non-negative [scale], [dist] is
    non-negative and satisfies the triangle inequality. *)
Theorem dist_triangle (self : PoincareBallMetric) (a b c : vec) :
  0 <= scale self ->
  Spec.in_ball a -> Spec.in_ball b -> Spec.in_ball c ->
  length a = length b -> length b = length c ->
  exists dab dbc dac : R,
    Metric.dist self (Arr1 a) (Arr1 b) = [[dab]] /\
    Metric.dist self (Arr1 b) (Arr1 c) = [[dbc]] /\
    Metric.dist self (Arr1 a) (Arr1 c) = [[dac]] /\
    0 <= dac <= dab + dbc.
Proof.
  intros Hs Ha Hb Hc Hab Hbc.
  exists (Metric.dist_row a b * scale self),
         (Metric.dist_row b c * scale self),
         (Metric.dist_row a c * scale self).
  repeat split; try apply dist_single.
  - apply Rmult_le_pos; [apply dist_row_nonneg | exact Hs].
  - pose proof (dist_row_triangle a b c Ha Hb Hc Hab Hbc). nra.
Qed.

Lemma dist_zero_iff_equal_witness :
  Metric.dist {| dimension := 2; scale := 1 |} (Arr1 [1/2; 0]) (Arr1 [1/2; 0])
  = [[0]] <-> [1/2; 0] = [1/2; 0].
Proof.
  apply (dist_zero_iff_equal {| dimension := 2; scale := 1 |}
           [1/2; 0] [1/2; 0]); simpl; [lra | reflexivity].
Defined.

Lemma dist_triangle_witness :
  exists dab dbc dac : R,
    Metric.dist {| dimension := 1; scale := 2 |} (Arr1 [0]) (Arr1 [1/2])
    = [[dab]] /\
    Metric.dist {| dimension := 1; scale := 2 |} (Arr1 [1/2]) (Arr1 [-1/2])
    = [[dbc]] /\
    Metric.dist {| dimension := 1; scale := 2 |} (Arr1 [0]) (Arr1 [-1/2])
    = [[dac]] /\
    0 <= dac <= dab + dbc.
Proof.
  apply (dist_triangle {| dimension := 1; scale := 2 |} [0] [1/2] [-1/2]);
    try reflexivity; try (simpl; lra); ball.
Defined.

(** ** The algebra of Moebius addition *)

Lemma dot_comm (a b : vec) : dot a b = dot b a.
Proof.
  unfold dot. f_equal. apply zip_with_comm. intros; ring.
Qed.

Lemma lin2_length (u v : R) (a b : vec) :
  length a = length b -> length (Spec.lin2 u v a b) = length a.
Proof.
  intros H. unfold Spec.lin2. rewrite zip_with_length, <- H.
  apply Nat.min_id.
Qed.

Lemma mobius_lin2 (a b : vec) :
  Spec.mobius a b =
  Spec.lin2
    ((1 + 2 * dot a b + sum (sq b)) /
     (1 + 2 * dot a b + sum (sq a) * sum (sq b)))
    ((1 - sum (sq a)) /
     (1 + 2 * dot a b + sum (sq a) * sum (sq b)))
    a b.
Proof.
  unfold Spec.mobius, Spec.lin2. apply zip_with_ext.
  intros x y _ _. unfold Rdiv. ring.
Qed.

Lemma sum_sq_lin2 (u v : R) (a b : vec) :
  length a = length b ->
  sum (sq (Spec.lin2 u v a b)) =
  u ^ 2 * sum (sq a) + 2 * u * v * dot a b + v ^ 2 * sum (sq b).
Proof.
  unfold Spec.lin2. revert b.
  induction a as [|x a IH]; intros [|y b] Hl; try discriminate.
  - unfold dot. simpl. ring.
  - injection Hl as Hl. cbn [zip_with].
    rewrite !sq_cons, !sum_cons, dot_cons, (IH b Hl). ring.
Qed.

Lemma dot_lin2_r (u v : R) (x a b : vec) :
  length x = length a -> length a = length b ->
  dot x (Spec.lin2 u v a b) = u * dot x a + v * dot x b.
Proof.
  unfold Spec.lin2. revert a b.
  induction x as [|z x IH]; intros [|y a] [|y' b] Hxa Hab; try discriminate.
  - unfold dot. simpl. ring.
  - injection Hxa as Hxa. injection Hab as Hab. cbn [zip_with].
    rewrite !dot_cons, (IH a b Hxa Hab). ring.
Qed.

Lemma lin2_opp_lin2 (u' v' u v : R) (a b : vec) :
  Spec.lin2 u' v' (map Ropp a) (Spec.lin2 u v a b) =
  Spec.lin2 (v' * u - u') (v' * v) a b.
Proof.
  unfold Spec.lin2. revert b.
  induction a as [|x a IH]; intros [|y b]; try reflexivity.
  cbn [map zip_with]. rewrite IH. f_equal. ring.
Qed.

Lemma lin2_snd (a b : vec) :
  length a = length b -> Spec.lin2 0 1 a b = b.
Proof.
  unfold Spec.lin2. revert b.
  induction a as [|x a IH]; intros [|y b] Hl; try discriminate.
  - reflexivity.
  - injection Hl as Hl. cbn [zip_with]. rewrite (IH b Hl). f_equal. ring.
Qed.

Lemma lin2_fst (a b : vec) :
  length a = length b -> Spec.lin2 1 0 a b = a.
Proof.
  unfold Spec.lin2. revert b.
  induction a as [|x a IH]; intros [|y b] Hl; try discriminate.
  - reflexivity.
  - injection Hl as Hl. cbn [zip_with]. rewrite (IH b Hl). f_equal. ring.
Qed.

Lemma sum_sq_sum_nonneg (a b : vec) :
  length a = length b -> 0 <= sum (sq a) + 2 * dot a b + sum (sq b).
Proof.
  intros Hl. pose proof (gram_psd a b b Hl eq_refl 1 1 0) as H. lra.
Qed.

(** The denominator of the Moebius sum is positive inside the unit
    ball. *)
Lemma mobius_den_pos (a b : vec) :
  length a = length b -> sum (sq a) < 1 -> sum (sq b) < 1 ->
  0 < 1 + 2 * dot a b + sum (sq a) * sum (sq b).
Proof.
  intros Hl Ha Hb. pose proof (sum_sq_sum_nonneg a b Hl) as H.
  assert (0 < (1 - sum (sq a)) * (1 - sum (sq b))) by nra.
  nra.
Qed.

Lemma mobius_norm (a b : vec) :
  length a = length b -> sum (sq a) < 1 -> sum (sq b) < 1 ->
  1 - sum (sq (Spec.mobius a b)) =
  (1 - sum (sq a)) * (1 - sum (sq b)) /
  (1 + 2 * dot a b + sum (sq a) * sum (sq b)).
Proof.
  intros Hl Ha Hb. pose proof (mobius_den_pos a b Hl Ha Hb) as HD.
  rewrite mobius_lin2, (sum_sq_lin2 _ _ a b Hl).
  field. lra.
Qed.

Lemma mobius_left_cancel (a b : vec) :
  length a = length b -> sum (sq a) < 1 -> sum (sq b) < 1 ->
  Spec.mobius (map Ropp a) (Spec.mobius a b) = b.
Proof.
  intros Hl Ha Hb. pose proof (mobius_den_pos a b Hl Ha Hb) as HD.
  pose proof (mobius_norm a b Hl Ha Hb) as HN.
  rewrite (mobius_lin2 (map Ropp a)).
  rewrite sum_sq_opp, dot_opp_l.
  set (x := Spec.mobius a b) in *.
  assert (Hx : dot a x =
               ((1 + 2 * dot a b + sum (sq b)) * sum (sq a) +
                (1 - sum (sq a)) * dot a b) /
               (1 + 2 * dot a b + sum (sq a) * sum (sq b))).
  { unfold x. rewrite mobius_lin2, dot_lin2_r by congruence.
    rewrite dot_self. field. lra. }
  assert (HX : sum (sq x) =
               1 - (1 - sum (sq a)) * (1 - sum (sq b)) /
                   (1 + 2 * dot a b + sum (sq a) * sum (sq b))) by lra.
  rewrite Hx, HX. unfold x. rewrite (mobius_lin2 a b) at 1.
  rewrite lin2_opp_lin2.
  set (A := sum (sq a)) in *. set (B := sum (sq b)) in *.
  set (c := dot a b) in *.
  assert (E1 : 1 - A <> 0) by lra.
  match goal with
  | |- Spec.lin2 ?u ?v a b = b =>
      replace u with 0; [replace v with 1; [now apply lin2_snd|]|]
  end.
  - field. split; [lra|].
    match goal with
    | |- ?e <> 0 => replace e with ((1 - A) ^ 2) by ring
    end.
    apply pow_nonzero, E1.
  - field. split; [lra|].
    match goal with
    | |- ?e <> 0 => replace e with ((1 - A) ^ 2) by ring
    end.
    apply pow_nonzero, E1.
Qed.

Lemma zip_with_repeat_r {A B C} (f : A -> B -> C) (c : B) (n : nat)
      (xs : list A) :
  (length xs <= n)%nat ->
  zip_with f xs (repeat c n) = map (fun x => f x c) xs.
Proof.
  revert n; induction xs as [|x xs IH]; intros [|n] H; simpl in *;
    try reflexivity; try lia.
  rewrite IH by lia. reflexivity.
Qed.

Lemma dot_zeros_l (n : nat) (b : vec) : dot (repeat 0 n) b = 0.
Proof.
  unfold dot, sum. revert b.
  induction n as [|n IH]; intros [|y b]; simpl; try reflexivity.
  rewrite IH. ring.
Qed.

Lemma mobius_add_single (a b : vec) :
  Spec.in_ball a -> Spec.in_ball b ->
  Metric.mobius_add (Arr1 a) (Arr1 b) = Ok [Spec.mobius a b].
Proof.
  intros Ha Hb.
  rewrite mobius_add_ok.
  - simpl. now rewrite mobius_add_row_formula.
  - unfold Spec.all_in_ball. simpl. unfold Spec.in_ball in Ha.
    now rewrite Ha.
  - unfold Spec.all_in_ball. simpl. unfold Spec.in_ball in Hb.
    now rewrite Hb.
Qed.

Lemma map_id_ext {A} (f : A -> A) (xs : list A) :
  (forall x, f x = x) -> map f xs = xs.
Proof.
  intros H. rewrite <- (map_id xs) at 2. now apply map_ext.
Qed.

Lemma mobius_zero_l (p : vec) :
  Spec.mobius (repeat 0 (length p)) p = p.
Proof.
  unfold Spec.mobius. rewrite zip_with_repeat_l by lia.
  rewrite dot_zeros_l, sum_sq_zeros.
  apply map_id_ext. intros y. field.
Qed.

Lemma mobius_zero_r (p : vec) :
  Spec.mobius p (repeat 0 (length p)) = p.
Proof.
  unfold Spec.mobius. rewrite zip_with_repeat_r by lia.
  rewrite dot_comm, dot_zeros_l, sum_sq_zeros.
  apply map_id_ext. intros x. field.
Qed.

(** X6: the zero vector is a two-sided identity of [mobius_add] on the
    ball. *)
Theorem mobius_add_zero (p : vec) :
  Spec.in_ball p ->
  Metric.mobius_add (Arr1 (repeat 0 (length p))) (Arr1 p) = Ok [p] /\
  Metric.mobius_add (Arr1 p) (Arr1 (repeat 0 (length p))) = Ok [p].
Proof.
  intros Hp. pose proof (in_ball_zeros (length p)) as H0.
  rewrite !mobius_add_single by assumption.
  now rewrite mobius_zero_l, mobius_zero_r.
Qed.

Lemma mobius_add_zero_witness :
  Spec.in_ball [1/2; 0] /\
  Metric.mobius_add (Arr1 [0; 0]) (Arr1 [1/2; 0]) = Ok [[1/2; 0]] /\
  Metric.mobius_add (Arr1 [1/2; 0]) (Arr1 [0; 0]) = Ok [[1/2; 0]].
Proof.
  assert (H : Spec.in_ball [1/2; 0]) by ball.
  split; [exact H | exact (mobius_add_zero [1/2; 0] H)].
Defined.

(** X7: the opposite of a point of the ball is its left and right
    inverse for [mobius_add]. *)
Theorem mobius_add_opposite (p : vec) :
  Spec.in_ball p ->
  Metric.mobius_add (Arr1 (map Ropp p)) (Arr1 p) =
  Ok [repeat 0 (length p)] /\
  Metric.mobius_add (Arr1 p) (Arr1 (map Ropp p)) =
  Ok [repeat 0 (length p)].
Proof.
  intros Hp. pose proof (in_ball_opp p Hp) as Hn.
  rewrite !mobius_add_single by assumption.
  rewrite <- !mobius_add_row_formula. split.
  - now rewrite mobius_add_row_opp.
  - pose proof (mobius_add_row_opp (map Ropp p)) as H.
    rewrite map_map, length_map in H.
    rewrite (map_ext _ (fun x => x)) in H by (intros; ring).
    rewrite map_id in H. now rewrite H.
Qed.

Lemma mobius_add_opposite_witness :
  Spec.in_ball [1/2; 0] /\
  Metric.mobius_add (Arr1 (map Ropp [1/2; 0])) (Arr1 [1/2; 0]) =
  Ok [[0; 0]] /\
  Metric.mobius_add (Arr1 [1/2; 0]) (Arr1 (map Ropp [1/2; 0])) =
  Ok [[0; 0]].
Proof.
  assert (H : Spec.in_ball [1/2; 0]) by ball.
  split; [exact H | exact (mobius_add_opposite [1/2; 0] H)].
Defined.

Lemma in_ball_lt_1 (p : vec) : Spec.in_ball p -> sum (sq p) < 1.
Proof. intros H%in_ball_lt. unfold TOLERANCE in H. lra. Qed.

(** X8: the Moebius sum of two points of the ball has squared norm
    [1 - (1 - |a|^2)(1 - |b|^2) / (1 + 2<a,b> + |a|^2 |b|^2)], which is
    below one. *)
Theorem mobius_add_in_unit_ball (a b : vec) :
  Spec.in_ball a -> Spec.in_ball b -> length a = length b ->
  exists r : vec,
    Metric.mobius_add (Arr1 a) (Arr1 b) = Ok [r] /\
    length r = length a /\
    1 - sum (sq r) =
    (1 - sum (sq a)) * (1 - sum (sq b)) /
    (1 + 2 * dot a b + sum (sq a) * sum (sq b)) /\
    sum (sq r) < 1.
Proof.
  intros Ha Hb Hl. exists (Spec.mobius a b).
  pose proof (in_ball_lt_1 a Ha) as Ha1.
  pose proof (in_ball_lt_1 b Hb) as Hb1.
  pose proof (mobius_norm a b Hl Ha1 Hb1) as HN.
  pose proof (mobius_den_pos a b Hl Ha1 Hb1) as HD.
  repeat split.
  - now apply mobius_add_single.
  - rewrite mobius_lin2. now apply lin2_length.
  - exact HN.
  - assert (0 < (1 - sum (sq a)) * (1 - sum (sq b)) /
                (1 + 2 * dot a b + sum (sq a) * sum (sq b))).
    { apply Rdiv_lt_0_compat; [nra | exact HD]. }
    lra.
Qed.

Lemma mobius_add_in_unit_ball_witness :
  exists r : vec,
    Metric.mobius_add (Arr1 [1/2; 0]) (Arr1 [0; 1/2]) = Ok [r] /\
    length r = length [1/2; 0] /\
    1 - sum (sq r) =
    (1 - sum (sq [1/2; 0])) * (1 - sum (sq [0; 1/2])) /
    (1 + 2 * dot [1/2; 0] [0; 1/2] +
     sum (sq [1/2; 0]) * sum (sq [0; 1/2])) /\
    sum (sq r) < 1.
Proof.
  apply (mobius_add_in_unit_ball [1/2; 0] [0; 1/2]);
    [ball | ball | reflexivity].
Defined.

(** X9: left cancellation.  When the Moebius sum [x] of two points [a]
    and [b] of the ball is itself in the ball, adding the opposite of
    [a] on the left of [x] gives [b] back. *)
Theorem mobius_add_left_cancel (a b x : vec) :
  Spec.in_ball a -> Spec.in_ball b -> length a = length b ->
  Metric.mobius_add (Arr1 a) (Arr1 b) = Ok [x] ->
  Spec.in_ball x ->
  Metric.mobius_add (Arr1 (map Ropp a)) (Arr1 x) = Ok [b].
Proof.
  intros Ha Hb Hl Hx Hin.
  rewrite (mobius_add_single a b Ha Hb) in Hx.
  injection Hx as <-.
  rewrite mobius_add_single by (try exact Hin; now apply in_ball_opp).
  do 2 f_equal.
  apply mobius_left_cancel; [exact Hl | now apply in_ball_lt_1 ..].
Qed.

Lemma mobius_add_left_cancel_witness :
  Metric.mobius_add (Arr1 (map Ropp [1/2; 0])) (Arr1 [1/2; 0]) =
  Ok [[0; 0]].
Proof.
  assert (Ha : Spec.in_ball [1/2; 0]) by ball.
  assert (H0 : Spec.in_ball [0; 0]) by ball.
  refine (mobius_add_left_cancel [1/2; 0] [0; 0] [1/2; 0] Ha H0 eq_refl
            _ Ha).
  rewrite (mobius_add_single _ _ Ha H0).
  pose proof (mobius_zero_r [1/2; 0]) as E. cbn [repeat length] in E.
  now rewrite E.
Defined.

(** ** Round trips between [exp] and [log] *)

Lemma tanh_bounds (y : R) : -1 < tanh y < 1.
Proof.
  rewrite tanh_exp. pose proof (exp_pos y) as He.
  set (E := Rtrigo_def.exp y ^ 2).
  assert (HE : 0 < E) by (unfold E; nra).
  split.
  - apply Rmult_lt_reg_r with (E + 1); [lra|].
    replace ((E - 1) / (E + 1) * (E + 1)) with (E - 1) by (field; lra). lra.
  - apply Rmult_lt_reg_r with (E + 1); [lra|].
    replace ((E - 1) / (E + 1) * (E + 1)) with (E - 1) by (field; lra). lra.
Qed.

Lemma arctanh_tanh (y : R) : arctanh (tanh y) = y.
Proof.
  unfold arctanh. rewrite tanh_exp. pose proof (exp_pos y) as He.
  replace ((1 + (Rtrigo_def.exp y ^ 2 - 1) / (Rtrigo_def.exp y ^ 2 + 1)) /
           (1 - (Rtrigo_def.exp y ^ 2 - 1) / (Rtrigo_def.exp y ^ 2 + 1)))
    with (Rtrigo_def.exp y * Rtrigo_def.exp y) by (field; nra).
  rewrite ln_mult, ln_exp by assumption. field.
Qed.

Lemma tanh_arctanh (m : R) : -1 < m < 1 -> tanh (arctanh m) = m.
Proof.
  intros Hm. rewrite tanh_exp. unfold arctanh.
  assert (Hq : 0 < (1 + m) / (1 - m)) by (apply Rdiv_lt_0_compat; lra).
  replace (Rtrigo_def.exp (/ 2 * ln ((1 + m) / (1 - m))) ^ 2)
    with ((1 + m) / (1 - m)).
  - field. lra.
  - simpl. rewrite Rmult_1_r, <- exp_plus.
    replace (/ 2 * ln ((1 + m) / (1 - m)) + / 2 * ln ((1 + m) / (1 - m)))
      with (ln ((1 + m) / (1 - m))) by field.
    now rewrite exp_ln.
Qed.

Lemma tanh_lower (y : R) : 0 <= y -> y / (1 + y) <= tanh y.
Proof.
  intros Hy. rewrite tanh_exp.
  pose proof (exp_ineq1_le (2 * y)) as He.
  replace (Rtrigo_def.exp (2 * y)) with (Rtrigo_def.exp y ^ 2) in He
    by (simpl; rewrite Rmult_1_r, <- exp_plus; f_equal; ring).
  set (E := Rtrigo_def.exp y ^ 2) in *.
  apply Rmult_le_reg_r with ((1 + y) * (E + 1)); [nra|].
  replace (y / (1 + y) * ((1 + y) * (E + 1))) with (y * (E + 1))
    by (field; lra).
  replace ((E - 1) / (E + 1) * ((1 + y) * (E + 1)))
    with ((E - 1) * (1 + y)) by (field; lra).
  nra.
Qed.

Lemma tanh_above_atol (y : R) : 1e-4 <= y -> atol < tanh y.
Proof.
  intros Hy. pose proof (tanh_lower y ltac:(lra)) as Hl.
  assert (H : 1e-4 / (1 + 1e-4) <= y / (1 + y)).
  { apply Rmult_le_reg_r with ((1 + 1e-4) * (1 + y)); [nra|].
    replace (1e-4 / (1 + 1e-4) * ((1 + 1e-4) * (1 + y)))
      with (1e-4 * (1 + y)) by (field; lra).
    replace (y / (1 + y) * ((1 + 1e-4) * (1 + y)))
      with (y * (1 + 1e-4)) by (field; lra).
    lra. }
  unfold atol.
  assert (1e-8 < 1e-4 / (1 + 1e-4)).
  { apply Rmult_lt_reg_r with (1 + 1e-4); [lra|].
    replace (1e-4 / (1 + 1e-4) * (1 + 1e-4)) with 1e-4 by (field; lra).
    lra. }
  lra.
Qed.

Lemma norm_sq (p : vec) : norm p ^ 2 = sum (sq p).
Proof.
  unfold norm. simpl. rewrite Rmult_1_r.
  apply sqrt_sqrt, sum_sq_nonneg.
Qed.

Lemma norm_nonneg (p : vec) : 0 <= norm p.
Proof. apply sqrt_pos. Qed.

Lemma sum_sq_scale (k : R) (v : vec) :
  sum (sq (map (fun x => x * k) v)) = k ^ 2 * sum (sq v).
Proof.
  induction v as [|x v IH]; [simpl; ring|].
  cbn [map]. rewrite !sq_cons, !sum_cons, IH. ring.
Qed.

Lemma norm_above_atol (v : vec) : atol < sum (sq v) -> 1e-4 < norm v.
Proof.
  unfold atol. intros H.
  replace 1e-4 with (sqrt (1e-4 * 1e-4)) by (apply sqrt_square; lra).
  apply sqrt_lt_1; lra.
Qed.

Lemma mobius_add_single_inv (a b : vec) (r : batch) :
  Metric.mobius_add (Arr1 a) (Arr1 b) = Ok r ->
  Spec.in_ball a /\ Spec.in_ball b /\ r = [Spec.mobius a b].
Proof.
  unfold Metric.mobius_add, Spec.in_ball. simpl.
  destruct (PoincareBall.belongs_row TOLERANCE a);
    destruct (PoincareBall.belongs_row TOLERANCE b); simpl;
    try discriminate.
  intros H. injection H as <-.
  now rewrite mobius_add_row_formula.
Qed.

Lemma zero_mask_false (v : vec) :
  atol < sum (sq v) ->
  isclose (sum (zip_with Rmult v v)) 0 = false.
Proof.
  intros H. rewrite sum_self_prod. apply isclose_0_false.
  rewrite Rabs_pos_eq; [exact H | apply sum_sq_nonneg].
Qed.

(** The operand that [exp] hands to [mobius_add] for one tangent vector
    beyond the near-zero threshold. *)
Lemma exp_single (v p : vec) :
  atol < sum (sq v) ->
  Metric.exp (Arr1 v) (Arr1 p) =
  Metric.mobius_add (Arr1 p)
    (Arr1 (map (fun x => x * (1 / norm v * tanh (1 / (1 - norm p ^ 2) * norm v)))
               v)).
Proof.
  intros Hv. unfold Metric.exp. cbv zeta. cbn [to_ndarray].
  unfold Metric.zero_mask. cbn [map]. rewrite (zero_mask_false v Hv).
  cbn [any existsb orb zip_with map]. rewrite map_map.
  rewrite (map_ext (fun x => x * (1 / norm v) *
                             tanh (1 / (1 - norm p ^ 2) * norm v))
                   (fun x => x * (1 / norm v *
                             tanh (1 / (1 - norm p ^ 2) * norm v))))
    by (intros; ring).
  match goal with
  | |- match ?m with _ => _ end = ?m' =>
      change m' with m; destruct m; reflexivity
  end.
Qed.

Lemma log_single (x p : vec) (u : vec) :
  Metric.mobius_add (Arr1 (map Ropp p)) (Arr1 x) = Ok [u] ->
  isclose (norm u) 0 = false ->
  Metric.log (Arr1 x) (Arr1 p) =
  Ok [map (fun y => (1 - norm p ^ 2) * arctanh (norm u) * (y / norm u)) u].
Proof.
  intros Hu Hm. unfold Metric.log. cbv zeta. cbn [to_ndarray map].
  change (Metric.mobius_add (Arr2 [map Ropp p]) (Arr2 [x]))
    with (Metric.mobius_add (Arr1 (map Ropp p)) (Arr1 x)).
  rewrite Hu. cbn [map zip_with]. rewrite Hm.
  cbn [any existsb orb]. now rewrite map_map.
Qed.

(** X10: [log] undoes [exp].  For a base point of the ball and a tangent
    vector beyond the near-zero threshold, when [exp] returns a point
    that is itself in the ball, [log] of that point is the tangent
    vector. *)
Theorem log_exp_round_trip (v p x : vec) :
  Spec.in_ball p -> length v = length p ->
  atol < sum (sq v) ->
  Metric.exp (Arr1 v) (Arr1 p) = Ok [x] ->
  Spec.in_ball x ->
  Metric.log (Arr1 x) (Arr1 p) = Ok [v].
Proof.
  intros Hp Hl Hv Hexp Hx.
  rewrite (exp_single v p Hv) in Hexp.
  set (n := norm v) in *.
  set (f := tanh (1 / (1 - norm p ^ 2) * n)) in *.
  set (w := map (fun y => y * (1 / n * f)) v) in *.
  apply mobius_add_single_inv in Hexp as (_ & Hw & Hxw).
  injection Hxw as Hxw.
  assert (Hn : 1e-4 < n) by now apply norm_above_atol.
  assert (Hn2 : n ^ 2 = sum (sq v)) by apply norm_sq.
  pose proof (in_ball_lt_1 p Hp) as Hp1.
  pose proof (sum_sq_nonneg p) as Hp0.
  assert (Hlam : 1e-4 <= 1 / (1 - norm p ^ 2) * n).
  { rewrite norm_sq.
    apply Rmult_le_reg_r with (1 - sum (sq p)); [lra|].
    replace (1 / (1 - sum (sq p)) * n * (1 - sum (sq p))) with n
      by (field; lra).
    nra. }
  assert (Hf : atol < f) by now apply tanh_above_atol.
  assert (Hf0 : 0 < f) by (unfold atol in Hf; lra).
  assert (Hlw : length p = length w) by (unfold w; now rewrite length_map).
  assert (Hnw : norm w = f).
  { unfold norm, w. rewrite sum_sq_scale, <- Hn2.
    replace ((1 / n * f) ^ 2 * n ^ 2) with (f * f) by (field; lra).
    apply sqrt_square. lra. }
  assert (Hu : Metric.mobius_add (Arr1 (map Ropp p)) (Arr1 x) = Ok [w]).
  { rewrite mobius_add_single by (try exact Hx; now apply in_ball_opp).
    rewrite Hxw, mobius_left_cancel; [reflexivity | exact Hlw | exact Hp1|].
    now apply in_ball_lt_1. }
  rewrite (log_single x p w Hu).
  - rewrite Hnw. unfold f at 1. rewrite arctanh_tanh.
    unfold w. rewrite map_map. do 2 f_equal.
    apply map_id_ext. intros y. rewrite norm_sq. field. lra.
  - rewrite Hnw. apply isclose_0_false. rewrite Rabs_pos_eq; lra.
Qed.

Lemma exp_origin (v : vec) :
  atol < sum (sq v) -> tanh (norm v) ^ 2 < 1 - TOLERANCE ->
  Metric.exp (Arr1 v) (Arr1 (repeat 0 (length v))) =
  Ok [map (fun x => x * (1 / norm v * tanh (norm v))) v].
Proof.
  intros Hv Ht. rewrite (exp_single _ _ Hv), norm_zeros.
  replace (1 / (1 - 0 ^ 2) * norm v) with (norm v) by field.
  pose proof (norm_above_atol v Hv) as Hn.
  set (w := map _ v).
  assert (Hw : Spec.in_ball w).
  { apply in_ball_lt. unfold w. rewrite sum_sq_scale, <- norm_sq.
    replace ((1 / norm v * tanh (norm v)) ^ 2 * norm v ^ 2)
      with (tanh (norm v) ^ 2) by (field; lra).
    exact Ht. }
  rewrite mobius_add_single by (try exact Hw; apply in_ball_zeros).
  replace (length v) with (length w) by (unfold w; apply length_map).
  now rewrite mobius_zero_l.
Qed.

Lemma tanh_1_sq : tanh 1 ^ 2 < 1 - TOLERANCE.
Proof.
  rewrite tanh_exp. pose proof exp_le_3 as H3. pose proof (exp_pos 1) as H0.
  set (E := Rtrigo_def.exp 1 ^ 2).
  assert (HE : 0 < E <= 9) by (unfold E; nra).
  assert (Hq : 0 <= (E - 1) / (E + 1) <= 8 / 10).
  { pose proof (exp_ineq1 1 ltac:(lra)) as H2.
    assert (1 <= E) by (unfold E; nra).
    split.
    - apply Rmult_le_pos; [lra|]. left. apply Rinv_0_lt_compat. lra.
    - apply Rmult_le_reg_r with (E + 1); [lra|].
      replace ((E - 1) / (E + 1) * (E + 1)) with (E - 1) by (field; lra).
      lra. }
  unfold TOLERANCE. nra.
Qed.

Lemma log_exp_round_trip_witness :
  exists x : vec,
    Metric.exp (Arr1 [1]) (Arr1 [0]) = Ok [x] /\
    Metric.log (Arr1 x) (Arr1 [0]) = Ok [[1]].
Proof.
  assert (Hv : atol < sum (sq [1])) by (unfold atol; simpl; lra).
  assert (Hn : norm [1] = 1) by (apply norm_single; lra).
  assert (Ht : tanh (norm [1]) ^ 2 < 1 - TOLERANCE)
    by (rewrite Hn; apply tanh_1_sq).
  pose proof (exp_origin [1] Hv Ht) as He. cbn [length repeat] in He.
  eexists. split; [exact He|].
  apply (log_exp_round_trip [1] [0] _ ltac:(ball) eq_refl Hv He).
  apply in_ball_lt. rewrite sum_sq_scale, <- norm_sq.
  replace ((1 / norm [1] * tanh (norm [1])) ^ 2 * norm [1] ^ 2)
    with (tanh (norm [1]) ^ 2) by (rewrite Hn; field).
  exact Ht.
Defined.

Lemma ln_lower (z : R) : 0 < z -> 1 - 1 / z <= ln z.
Proof.
  intros Hz.
  pose proof (exp_ineq1_le (- ln z)) as H.
  rewrite exp_Ropp, exp_ln in H by exact Hz.
  unfold Rdiv. lra.
Qed.

Lemma arctanh_lower (m : R) : 0 <= m < 1 -> m / (1 + m) <= arctanh m.
Proof.
  intros Hm. unfold arctanh.
  assert (Hq : 0 < (1 + m) / (1 - m)) by (apply Rdiv_lt_0_compat; lra).
  pose proof (ln_lower _ Hq) as H.
  replace (1 - 1 / ((1 + m) / (1 - m))) with (2 * (m / (1 + m))) in H
    by (field; lra).
  lra.
Qed.

Lemma opp_opp (p : vec) : map Ropp (map Ropp p) = p.
Proof. rewrite map_map. apply map_id_ext. intros; ring. Qed.

(** X11: [exp] undoes [log].  For two points of the ball whose Moebius
    difference is in the ball and beyond the near-zero threshold, when
    [log] returns a tangent vector beyond the near-zero threshold,
    [exp] of that vector is the point. *)
Theorem exp_log_round_trip (x p v : vec) :
  Spec.in_ball p -> Spec.in_ball x -> length p = length x ->
  Spec.in_ball (Spec.mobius (map Ropp p) x) ->
  atol < norm (Spec.mobius (map Ropp p) x) ->
  Metric.log (Arr1 x) (Arr1 p) = Ok [v] ->
  atol < sum (sq v) ->
  Metric.exp (Arr1 v) (Arr1 p) = Ok [x].
Proof.
  intros Hp Hx Hl Hu Hnu Hlog Hv.
  pose proof (in_ball_opp p Hp) as Hnp.
  set (u := Spec.mobius (map Ropp p) x) in *.
  set (nu := norm u) in *.
  assert (Hm : Metric.mobius_add (Arr1 (map Ropp p)) (Arr1 x) = Ok [u])
    by now apply mobius_add_single.
  assert (Hc : isclose nu 0 = false).
  { apply isclose_0_false. rewrite Rabs_pos_eq; [exact Hnu|].
    apply norm_nonneg. }
  rewrite (log_single x p u Hm Hc) in Hlog. injection Hlog as Hlog.
  fold nu in Hlog.
  pose proof (in_ball_lt_1 p Hp) as Hp1.
  pose proof (sum_sq_nonneg p) as Hp0.
  assert (Hnu0 : 0 < nu) by (unfold atol in Hnu; lra).
  assert (Hnu1 : nu < 1).
  { pose proof (in_ball_lt_1 u Hu) as H1.
    rewrite <- norm_sq in H1. fold nu in H1.
    destruct (Rlt_dec nu 1) as [Hlt | Hge]; [exact Hlt | nra]. }
  assert (Hat : 0 < arctanh nu).
  { pose proof (arctanh_lower nu ltac:(lra)) as H.
    assert (0 < nu / (1 + nu)) by (apply Rdiv_lt_0_compat; lra).
    lra. }
  set (k := (1 - norm p ^ 2) * arctanh nu) in *.
  assert (Hk : 0 < k) by (unfold k; rewrite norm_sq; nra).
  assert (Hvk : v = map (fun y => y * (k / nu)) u).
  { rewrite <- Hlog. apply map_ext. intros y. unfold k. simpl.
    field. lra. }
  assert (Hnv : norm v = k).
  { unfold norm. rewrite Hvk, sum_sq_scale, <- norm_sq. fold nu.
    replace ((k / nu) ^ 2 * nu ^ 2) with (k * k) by (field; lra).
    apply sqrt_square. lra. }
  rewrite (exp_single v p Hv), Hnv.
  replace (1 / (1 - norm p ^ 2) * k) with (arctanh nu)
    by (unfold k; rewrite norm_sq; field; lra).
  rewrite tanh_arctanh by lra.
  assert (Hw : map (fun y => y * (1 / k * nu)) v = u).
  { rewrite Hvk, map_map. apply map_id_ext. intros y. field. lra. }
  rewrite Hw, mobius_add_single by assumption.
  do 2 f_equal. unfold u.
  rewrite <- (opp_opp p) at 1.
  apply mobius_left_cancel.
  - now rewrite length_map.
  - now apply in_ball_lt_1.
  - now apply in_ball_lt_1.
Qed.

Lemma exp_log_round_trip_witness :
  exists v : vec,
    Metric.log (Arr1 [1/2]) (Arr1 [0]) = Ok [v] /\
    Metric.exp (Arr1 v) (Arr1 [0]) = Ok [[1/2]].
Proof.
  assert (Hp : Spec.in_ball [0]) by ball.
  assert (Hx : Spec.in_ball [1/2]) by ball.
  assert (Eu : Spec.mobius (map Ropp [0]) [1/2] = [1/2]).
  { unfold Spec.mobius, dot, sum, sq. simpl. f_equal. field. }
  assert (En : norm [1/2] = 1/2) by (apply norm_single; lra).
  assert (Hu : Spec.in_ball (Spec.mobius (map Ropp [0]) [1/2]))
    by (rewrite Eu; exact Hx).
  assert (Hnu : atol < norm (Spec.mobius (map Ropp [0]) [1/2]))
    by (rewrite Eu, En; unfold atol; lra).
  assert (Hm : Metric.mobius_add (Arr1 (map Ropp [0])) (Arr1 [1/2]) =
               Ok [[1/2]]).
  { rewrite mobius_add_single by (try exact Hx; now apply in_ball_opp).
    now rewrite Eu. }
  assert (Hc : isclose (norm [1/2]) 0 = false).
  { rewrite En. apply isclose_0_false. unfold atol.
    rewrite Rabs_pos_eq; lra. }
  pose proof (log_single [1/2] [0] [1/2] Hm Hc) as Hlog.
  eexists. split; [exact Hlog|].
  apply (exp_log_round_trip [1/2] [0] _ Hp Hx eq_refl Hu Hnu Hlog).
  rewrite En, (norm_single 0) by lra.
  pose proof (arctanh_lower (1/2) ltac:(lra)) as Ha.
  unfold atol. simpl.
  replace (1 / 2 / (1 + 1 / 2)) with (1 / 3) in Ha by field.
  replace (1 / 2 / (1 / 2)) with 1 by field.
  nra.
Defined.

(** ** Distance, Moebius difference and the inverse hyperbolic tangent *)

Lemma arcosh_arctanh (m : R) :
  0 <= m < 1 ->
  ln ((1 + m ^ 2) / (1 - m ^ 2) +
      sqrt (((1 + m ^ 2) / (1 - m ^ 2)) ^ 2 - 1)) = 2 * arctanh m.
Proof.
  intros Hm. unfold arctanh.
  assert (H1 : 0 < 1 - m ^ 2) by nra.
  replace (((1 + m ^ 2) / (1 - m ^ 2)) ^ 2 - 1)
    with ((2 * m / (1 - m ^ 2)) * (2 * m / (1 - m ^ 2))) by (field; lra).
  rewrite sqrt_square.
  - replace ((1 + m ^ 2) / (1 - m ^ 2) + 2 * m / (1 - m ^ 2))
      with ((1 + m) / (1 - m)) by (field; split; nra).
    field.
  - apply Rmult_le_pos; [lra|]. left. now apply Rinv_0_lt_compat.
Qed.

Lemma dist_row_mobius (a b : vec) :
  Spec.in_ball a -> Spec.in_ball b -> length a = length b ->
  Metric.dist_row a b = 2 * arctanh (norm (Spec.mobius (map Ropp a) b)).
Proof.
  intros Ha Hb Hl.
  pose proof (in_ball_lt_1 a Ha) as Ha1.
  pose proof (in_ball_lt_1 b Hb) as Hb1.
  assert (Hl' : length (map Ropp a) = length b) by now rewrite length_map.
  assert (Ha1' : sum (sq (map Ropp a)) < 1) by now rewrite sum_sq_opp.
  pose proof (mobius_norm _ _ Hl' Ha1' Hb1) as HN.
  pose proof (mobius_den_pos _ _ Hl' Ha1' Hb1) as HD.
  rewrite sum_sq_opp, dot_opp_l in HN, HD.
  set (u := Spec.mobius (map Ropp a) b) in *.
  assert (Hq : 0 < (1 - sum (sq a)) * (1 - sum (sq b)) /
                   (1 + 2 * - dot a b + sum (sq a) * sum (sq b))).
  { apply Rdiv_lt_0_compat; [nra | exact HD]. }
  pose proof (norm_nonneg u) as Hn0.
  pose proof (norm_sq u) as Hn2.
  assert (Hn1 : norm u < 1).
  { destruct (Rlt_dec (norm u) 1) as [Hlt | Hge]; [exact Hlt | nra]. }
  rewrite <- (arcosh_arctanh (norm u)) by lra.
  unfold Metric.dist_row. cbv zeta.
  rewrite (clip_in_ball a Ha), (clip_in_ball b Hb), (sum_sq_diff a b Hl).
  assert (E : 1 + 2 * (sum (sq a) - 2 * dot a b + sum (sq b)) /
                  ((1 - sum (sq a)) * (1 - sum (sq b))) =
              (1 + norm u ^ 2) / (1 - norm u ^ 2)).
  { rewrite Hn2.
    replace (sum (sq u)) with
      (1 - (1 - sum (sq a)) * (1 - sum (sq b)) /
           (1 + 2 * - dot a b + sum (sq a) * sum (sq b))) by lra.
    field. repeat split; try lra.
    assert (0 < (1 - sum (sq a)) * (1 - sum (sq b))) by nra. lra. }
  now rewrite E.
Qed.

(** X12: on the ball, [dist] is twice the inverse hyperbolic tangent of
    the norm of the Moebius difference that [log] computes, times
    [scale]. *)
Theorem dist_mobius_add (self : PoincareBallMetric) (a b : vec) :
  Spec.in_ball a -> Spec.in_ball b -> length a = length b ->
  exists u : vec,
    Metric.mobius_add (Arr1 (map Ropp a)) (Arr1 b) = Ok [u] /\
    Metric.dist self (Arr1 a) (Arr1 b) =
    [[2 * arctanh (norm u) * scale self]].
Proof.
  intros Ha Hb Hl. exists (Spec.mobius (map Ropp a) b). split.
  - apply mobius_add_single; [now apply in_ball_opp | exact Hb].
  - rewrite dist_single. now rewrite dist_row_mobius.
Qed.

Lemma dist_mobius_add_witness :
  exists u : vec,
    Metric.mobius_add (Arr1 (map Ropp [0; 0])) (Arr1 [1/2; 0]) = Ok [u] /\
    Metric.dist {| dimension := 2; scale := 1 |} (Arr1 [0; 0]) (Arr1 [1/2; 0])
    = [[2 * arctanh (norm u) * 1]].
Proof.
  apply (dist_mobius_add {| dimension := 2; scale := 1 |} [0; 0] [1/2; 0]);
    [ball | ball | reflexivity].
Defined.

(** X13: from the origin, [dist] to a point of the ball is
    [2 * arctanh |b| * scale]. *)
Theorem dist_from_origin (self : PoincareBallMetric) (b : vec) :
  Spec.in_ball b ->
  Metric.dist self (Arr1 (repeat 0 (length b))) (Arr1 b) =
  [[2 * arctanh (norm b) * scale self]].
Proof.
  intros Hb. rewrite dist_single.
  rewrite dist_row_mobius;
    [| apply in_ball_zeros | exact Hb | apply repeat_length].
  replace (map Ropp (repeat 0 (length b))) with (repeat 0 (length b)).
  - now rewrite mobius_zero_l.
  - rewrite map_repeat. f_equal. ring.
Qed.

Lemma dist_from_origin_witness :
  Spec.in_ball [1/2; 0] /\
  Metric.dist {| dimension := 2; scale := 1 |} (Arr1 [0; 0]) (Arr1 [1/2; 0])
  = [[2 * arctanh (norm [1/2; 0]) * 1]].
Proof.
  assert (H : Spec.in_ball [1/2; 0]) by ball.
  split; [exact H|].
  exact (dist_from_origin {| dimension := 2; scale := 1 |} [1/2; 0] H).
Defined.

(** ** Further behaviour of [exp], [retraction] and [belongs] *)

(** X14: at the origin, [exp] of a tangent vector beyond the near-zero
    threshold is the vector rescaled to norm [tanh |v|], provided that
    norm passes the domain check. *)
Theorem exp_at_origin (v : vec) :
  atol < sum (sq v) -> tanh (norm v) ^ 2 < 1 - TOLERANCE ->
  Metric.exp (Arr1 v) (Arr1 (repeat 0 (length v))) =
  Ok [map (fun x => x * (1 / norm v * tanh (norm v))) v].
Proof. apply exp_origin. Qed.

Lemma exp_at_origin_witness :
  Metric.exp (Arr1 [1]) (Arr1 [0]) =
  Ok [map (fun x => x * (1 / norm [1] * tanh (norm [1]))) [1]].
Proof.
  apply (exp_at_origin [1]).
  - unfold atol. simpl. lra.
  - rewrite norm_single by lra. apply tanh_1_sq.
Defined.

Lemma isclose_0_true (x : R) : Rabs x <= atol -> isclose x 0 = true.
Proof.
  intros Hx. unfold isclose. apply leb_true.
  rewrite Rminus_0_r, Rabs_R0. lra.
Qed.

(** X15: for every tangent vector within the near-zero threshold
    ([|v|^2 <= 1e-8]), [exp] returns the base point itself whenever it
    returns. *)
Theorem exp_near_zero (v p : vec) (r : batch) :
  sum (sq v) <= atol ->
  Metric.exp (Arr1 v) (Arr1 p) = Ok r ->
  r = [p].
Proof.
  intros Hv. unfold Metric.exp. cbv zeta. cbn [to_ndarray].
  unfold Metric.zero_mask. cbn [map]. rewrite sum_self_prod.
  rewrite isclose_0_true
    by (rewrite Rabs_pos_eq; [exact Hv | apply sum_sq_nonneg]).
  cbn [any existsb orb select fill length Nat.eqb negb zip_with map].
  match goal with
  | |- match ?m with _ => _ end = _ -> _ => destruct m as [e|] eqn:Hm
  end; [|discriminate].
  apply mobius_add_single_inv in Hm as (_ & _ & ->).
  cbn [select length Nat.eqb negb assign].
  intros H. now injection H as <-.
Qed.

Lemma tanh_upper (y : R) : 0 <= y < 1 / 2 -> 0 <= tanh y <= y / (1 - y).
Proof.
  intros Hy. rewrite tanh_exp.
  pose proof (exp_ineq1_le (2 * y)) as Hlo.
  pose proof (exp_ineq1_le (- (2 * y))) as Hup.
  rewrite exp_Ropp in Hup.
  replace (Rtrigo_def.exp (2 * y)) with (Rtrigo_def.exp y ^ 2) in Hlo, Hup
    by (simpl; rewrite Rmult_1_r, <- exp_plus; f_equal; ring).
  set (E := Rtrigo_def.exp y ^ 2) in *.
  assert (HE : 1 <= E) by lra.
  assert (HE2 : E * (1 - 2 * y) <= 1).
  { apply Rmult_le_compat_l with (r := E) in Hup; [|lra].
    rewrite Rinv_r in Hup by lra. lra. }
  split.
  - apply Rmult_le_pos; [lra|]. left. apply Rinv_0_lt_compat. lra.
  - apply Rmult_le_reg_r with ((E + 1) * (1 - y)); [nra|].
    replace ((E - 1) / (E + 1) * ((E + 1) * (1 - y)))
      with ((E - 1) * (1 - y)) by (field; lra).
    replace (y / (1 - y) * ((E + 1) * (1 - y))) with (y * (E + 1))
      by (field; lra).
    nra.
Qed.

Lemma exp_near_zero_witness :
  Metric.exp (Arr1 [1e-5]) (Arr1 [1/2]) = Ok [[1/2]].
Proof.
  assert (Hv : sum (sq [1e-5]) <= atol) by (unfold atol; simpl; lra).
  destruct (Metric.exp (Arr1 [1e-5]) (Arr1 [1/2])) as [r|e] eqn:He.
  - now rewrite (exp_near_zero [1e-5] [1/2] r Hv He).
  - exfalso. revert He. unfold Metric.exp. cbv zeta. cbn [to_ndarray].
    unfold Metric.zero_mask. cbn [map]. rewrite sum_self_prod.
    rewrite isclose_0_true
      by (rewrite Rabs_pos_eq; [exact Hv | apply sum_sq_nonneg]).
    cbn [any existsb orb select fill length Nat.eqb negb zip_with map].
    rewrite mobius_add_ok; [discriminate | | ].
    + apply all_in_ball_single. ball.
    + apply all_in_ball_single. apply in_ball_lt.
      rewrite (norm_single (1 / 2)) by lra.
      replace (1 / (1 - (1 / 2) ^ 2) * EPSILON) with (4 / 3 * EPSILON)
        by field.
      assert (Hy : 0 <= 4 / 3 * EPSILON < 1 / 2) by (unfold EPSILON; lra).
      pose proof (tanh_upper _ Hy) as Ht.
      assert (Hq : 4 / 3 * EPSILON / (1 - 4 / 3 * EPSILON) <= 2e-6).
      { unfold EPSILON.
        apply Rmult_le_reg_r with (1 - 4 / 3 * 1e-6); [lra|].
        replace (4 / 3 * 1e-6 / (1 - 4 / 3 * 1e-6) * (1 - 4 / 3 * 1e-6))
          with (4 / 3 * 1e-6) by (field; lra).
        lra. }
      set (t := tanh (4 / 3 * EPSILON)) in *.
      unfold TOLERANCE, EPSILON in *. simpl. nra.
Defined.

(** X16: [retraction] of the zero tangent vector is the base point, as
    for [exp]. *)
Theorem retraction_zero (p : vec) :
  Spec.in_ball p ->
  Metric.retraction (Arr1 (repeat 0 (length p))) (Arr1 p) = Ok [p].
Proof.
  intros Hp. rewrite retraction_ok.
  - simpl. rewrite retract_row by reflexivity.
    rewrite zip_with_repeat_r by lia.
    do 2 f_equal. apply map_id_ext. intros x. ring.
  - apply all_in_ball_single in Hp. exact Hp.
Qed.

Lemma retraction_zero_witness :
  Spec.in_ball [1/2; 0] /\
  Metric.retraction (Arr1 [0; 0]) (Arr1 [1/2; 0]) = Ok [[1/2; 0]].
Proof.
  assert (H : Spec.in_ball [1/2; 0]) by ball.
  split; [exact H | exact (retraction_zero [1/2; 0] H)].
Defined.

Lemma sum_sq_scale_l (k : R) (v : vec) :
  sum (sq (map (fun x => k * x) v)) = k ^ 2 * sum (sq v).
Proof.
  rewrite <- sum_sq_scale. do 2 f_equal. apply map_ext. intros; ring.
Qed.

(** X17: the domain of [belongs] is star-shaped about the origin and
    grows as the tolerance shrinks: a point that belongs still belongs
    after scaling by a factor between [-1] and [1], and at every
    smaller tolerance. *)
Theorem belongs_star_shaped (p : vec) (tol tol' k : R) :
  PoincareBall.belongs (Arr1 p) tol = [true] ->
  -1 <= k <= 1 -> tol' <= tol ->
  PoincareBall.belongs (Arr1 (map (fun x => k * x) p)) tol' = [true].
Proof.
  simpl. intros H Hk Ht. injection H as H. f_equal.
  apply belongs_row_true in H. apply belongs_row_true.
  rewrite sum_sq_scale_l. pose proof (sum_sq_nonneg p) as Hn.
  assert (Hk2 : 0 <= k ^ 2 <= 1) by nra.
  nra.
Qed.

Lemma belongs_star_shaped_witness :
  PoincareBall.belongs (Arr1 (map (fun x => -1 * x) [1/2; 0])) 0 = [true].
Proof.
  apply (belongs_star_shaped [1/2; 0] TOLERANCE 0 (-1)).
  - assert (H : Spec.in_ball [1/2; 0]) by ball.
    simpl. unfold Spec.in_ball in H. now rewrite H.
  - lra.
  - unfold TOLERANCE. lra.
Defined.

(** X18: the ball of [belongs] is not closed under [mobius_add]: the sum
    of two points that pass the domain check can fail it. *)
Theorem mobius_add_not_closed :
  exists a b r : vec,
    Spec.in_ball a /\ Spec.in_ball b /\
    Metric.mobius_add (Arr1 a) (Arr1 b) = Ok [r] /\
    PoincareBall.belongs_row TOLERANCE r = false.
Proof.
  exists [1999/2000], [1999/2000], (Spec.mobius [1999/2000] [1999/2000]).
  assert (H : Spec.in_ball [1999/2000]) by ball.
  repeat split; try exact H.
  - now apply mobius_add_single.
  - apply belongs_row_false. unfold TOLERANCE, Spec.mobius, dot, sum, sq.
    simpl.
    match goal with
    | |- _ <= ?x * (?x * 1) + 0 =>
        replace x with (7996000 / 7996001) by (field; lra)
    end.
    lra.
Qed.

Lemma exp_masked (v p : vec) (r : batch) :
  sum (sq v) <= atol ->
  Metric.exp (Arr1 v) (Arr1 p) = Ok r ->
  r = [p] /\ Spec.in_ball p.
Proof.
  intros Hv. unfold Metric.exp. cbv zeta. cbn [to_ndarray].
  unfold Metric.zero_mask. cbn [map]. rewrite sum_self_prod.
  rewrite isclose_0_true
    by (rewrite Rabs_pos_eq; [exact Hv | apply sum_sq_nonneg]).
  cbn [any existsb orb select fill length Nat.eqb negb zip_with map].
  match goal with
  | |- match ?m with _ => _ end = _ -> _ => destruct m as [e|] eqn:Hm
  end; [|discriminate].
  apply mobius_add_single_inv in Hm as (Hp & _ & ->).
  cbn [select length Nat.eqb negb assign].
  intros H. injection H as <-. now split.
Qed.

(** X19: whatever [exp] returns lies in the open unit ball: for a tangent
    vector and a base point of the same dimension, a returned row has
    squared norm below one. *)
Theorem exp_in_unit_ball (v p : vec) (r : batch) :
  length v = length p ->
  Metric.exp (Arr1 v) (Arr1 p) = Ok r ->
  exists x : vec, r = [x] /\ length x = length p /\ sum (sq x) < 1.
Proof.
  intros Hl He.
  destruct (Rle_dec (sum (sq v)) atol) as [Hz | Hnz].
  - destruct (exp_masked v p r Hz He) as (-> & Hp).
    exists p. repeat split. now apply in_ball_lt_1.
  - assert (Hv : atol < sum (sq v)) by lra.
    rewrite (exp_single v p Hv) in He.
    apply mobius_add_single_inv in He as (Hp & Hw & ->).
    set (w := map _ v) in *.
    assert (Hlw : length p = length w)
      by (unfold w; now rewrite length_map).
    pose proof (in_ball_lt_1 p Hp) as Hp1.
    pose proof (in_ball_lt_1 w Hw) as Hw1.
    exists (Spec.mobius p w). repeat split.
    + rewrite mobius_lin2. now apply lin2_length.
    + pose proof (mobius_norm p w Hlw Hp1 Hw1) as HN.
      pose proof (mobius_den_pos p w Hlw Hp1 Hw1) as HD.
      assert (0 < (1 - sum (sq p)) * (1 - sum (sq w)) /
                  (1 + 2 * dot p w + sum (sq p) * sum (sq w))).
      { apply Rdiv_lt_0_compat; [nra | exact HD]. }
      lra.
Qed.

Lemma exp_in_unit_ball_witness :
  exists x : vec,
    [map (fun x => x * (1 / norm [1] * tanh (norm [1]))) [1]] = [x] /\
    length x = length [0] /\ sum (sq x) < 1.
Proof.
  apply (exp_in_unit_ball [1] [0] _ eq_refl).
  apply (exp_origin [1]).
  - unfold atol. simpl. lra.
  - rewrite norm_single by lra. apply tanh_1_sq.
Defined.

(** ** Inputs of the ball on which [exp] and [log] raise *)

Lemma frac_mono (y z : R) : 0 <= y <= z -> y / (1 + y) <= z / (1 + z).
Proof.
  intros H. apply Rmult_le_reg_r with ((1 + y) * (1 + z)); [nra|].
  replace (y / (1 + y) * ((1 + y) * (1 + z))) with (y * (1 + z))
    by (field; lra).
  replace (z / (1 + z) * ((1 + y) * (1 + z))) with (z * (1 + y))
    by (field; lra).
  lra.
Qed.

(** X20: the epsilon guard of [exp] can itself raise: a tangent vector
    within the near-zero threshold is divided by [EPSILON], and close to
    the boundary the resulting operand fails the domain check of
    [mobius_add]. *)
Theorem exp_near_zero_raises :
  exists v p : vec,
    Spec.in_ball p /\ sum (sq v) <= atol /\
    Metric.exp (Arr1 v) (Arr1 p) = Raise not_in_ball.
Proof.
  exists [5e-5], [99999/100000].
  assert (Hv : sum (sq [5e-5]) <= atol) by (unfold atol; simpl; lra).
  split; [ball | split; [exact Hv|]].
  unfold Metric.exp. cbv zeta. cbn [to_ndarray].
  unfold Metric.zero_mask. cbn [map]. rewrite sum_self_prod.
  rewrite isclose_0_true
    by (rewrite Rabs_pos_eq; [exact Hv | apply sum_sq_nonneg]).
  cbn [any existsb orb select fill length Nat.eqb negb zip_with map].
  rewrite mobius_add_raises; [reflexivity|].
  right. apply belongs_outside. eexists. split; [left; reflexivity|].
  rewrite norm_single by lra.
  set (y := 1 / (1 - (99999 / 100000) ^ 2) * EPSILON).
  assert (Hy : 5e-2 <= y).
  { unfold y, EPSILON.
    apply Rmult_le_reg_r with (1 - (99999 / 100000) ^ 2); [lra|].
    replace (1 / (1 - (99999 / 100000) ^ 2) * 1e-6 *
             (1 - (99999 / 100000) ^ 2)) with 1e-6 by (field; lra).
    lra. }
  pose proof (tanh_lower y ltac:(lra)) as Ht.
  pose proof (frac_mono 5e-2 y ltac:(lra)) as Hm.
  assert (H4 : 4e-2 <= 5e-2 / (1 + 5e-2)).
  { apply Rmult_le_reg_r with (1 + 5e-2); [lra|].
    replace (5e-2 / (1 + 5e-2) * (1 + 5e-2)) with 5e-2 by (field; lra).
    lra. }
  set (t := tanh y) in *.
  unfold TOLERANCE, EPSILON. simpl. nra.
Qed.

Lemma exp_pow (n : nat) : Rtrigo_def.exp (INR n) = Rtrigo_def.exp 1 ^ n.
Proof.
  induction n as [|n IH]; [simpl; apply exp_0|].
  rewrite S_INR, exp_plus, IH. simpl. ring.
Qed.

Lemma exp_12_bounds : 4096 <= Rtrigo_def.exp 6 ^ 2 <= 531441.
Proof.
  replace 6 with (INR 6) by (simpl; ring).
  rewrite exp_pow, <- pow_mult.
  pose proof (exp_ineq1 1 ltac:(lra)) as H2.
  pose proof exp_le_3 as H3.
  split.
  - replace 4096 with (2 ^ (6 * 2)) by (simpl; ring).
    apply pow_incr. lra.
  - replace 531441 with (3 ^ (6 * 2)) by (simpl; ring).
    apply pow_incr. split; [lra | exact H3].
Qed.

Lemma tanh_6_bounds : 1 - 5e-4 <= tanh 6 <= 1 - 3e-6.
Proof.
  rewrite tanh_exp. pose proof exp_12_bounds as HE.
  set (E := Rtrigo_def.exp 6 ^ 2) in *.
  split.
  - apply Rmult_le_reg_r with (E + 1); [lra|].
    replace ((E - 1) / (E + 1) * (E + 1)) with (E - 1) by (field; lra).
    lra.
  - apply Rmult_le_reg_r with (E + 1); [lra|].
    replace ((E - 1) / (E + 1) * (E + 1)) with (E - 1) by (field; lra).
    lra.
Qed.

Lemma log_raises_point (x p : vec) :
  PoincareBall.belongs_row TOLERANCE x = false ->
  Metric.log (Arr1 x) (Arr1 p) = Raise not_in_ball.
Proof.
  intros Hx. unfold Metric.log. cbv zeta.
  rewrite mobius_add_raises; [reflexivity|].
  right. apply belongs_fails. exists x. split; [now left | exact Hx].
Qed.

(** X21: [log] after [exp] can raise: [exp] of a small tangent vector at
    a base point of the ball can return a point that fails the domain
    check, so that [log] refuses it. *)
Theorem log_exp_raises :
  exists v p x : vec,
    Spec.in_ball p /\ atol < sum (sq v) /\
    Metric.exp (Arr1 v) (Arr1 p) = Ok [x] /\
    Metric.log (Arr1 x) (Arr1 p) = Raise not_in_ball.
Proof.
  set (p := 1999 / 2000). set (v := 11997 / 2000000).
  set (w := [v * (1 / norm [v] * tanh (1 / (1 - norm [p] ^ 2) * norm [v]))]).
  exists [v], [p], (Spec.mobius [p] w).
  assert (Hp : Spec.in_ball [p]) by (unfold p; ball).
  assert (Hv : atol < sum (sq [v])) by (unfold atol, v; simpl; lra).
  assert (Ew : w = [tanh 6]).
  { unfold w. rewrite !norm_single by (unfold p, v; lra).
    replace (1 / (1 - p ^ 2) * v) with 6 by (unfold p, v; field).
    f_equal. unfold v. field. }
  pose proof tanh_6_bounds as Ht.
  assert (Hw : Spec.in_ball w).
  { rewrite Ew. apply in_ball_lt. unfold TOLERANCE. simpl. nra. }
  assert (He : Metric.exp (Arr1 [v]) (Arr1 [p]) = Ok [Spec.mobius [p] w]).
  { rewrite (exp_single _ _ Hv). now apply mobius_add_single. }
  repeat split; try assumption.
  apply log_raises_point, belongs_row_false.
  pose proof (in_ball_lt_1 _ Hp) as Hp1.
  pose proof (in_ball_lt_1 _ Hw) as Hw1.
  pose proof (mobius_norm [p] w eq_refl Hp1 Hw1) as HN.
  pose proof (mobius_den_pos [p] w eq_refl Hp1 Hw1) as HD.
  rewrite Ew in HN, HD |- *.
  set (s := sum (sq (Spec.mobius [p] [tanh 6]))) in *.
  unfold dot, sum, sq in HN, HD. simpl in HN, HD.
  set (f := tanh 6) in *.
  assert (Hq : (1 - (p * (p * 1) + 0)) * (1 - (f * (f * 1) + 0)) /
               (1 + 2 * (p * f + 0) + (p * (p * 1) + 0) * (f * (f * 1) + 0))
               <= 1e-6).
  { apply Rmult_le_reg_r with
      (1 + 2 * (p * f + 0) + (p * (p * 1) + 0) * (f * (f * 1) + 0));
      [exact HD|].
    unfold Rdiv. rewrite Rmult_assoc, Rinv_l by lra.
    unfold p in *. nra. }
  unfold TOLERANCE. lra.
Qed.

(** ** The closed forms of [exp] and [log] *)

(** X22: beyond the near-zero threshold, [exp] is the Moebius sum of the
    base point and the unit direction of the tangent vector scaled by
    [tanh (|v| / (1 - |p|^2))]; it raises exactly when that Moebius sum
    does. *)
Theorem exp_formula (v p : vec) :
  atol < sum (sq v) ->
  Metric.exp (Arr1 v) (Arr1 p) =
  Metric.mobius_add (Arr1 p)
    (Arr1 (map (fun x => x / norm v * tanh (norm v / (1 - sum (sq p)))) v)).
Proof.
  intros Hv. rewrite (exp_single v p Hv), norm_sq.
  do 2 f_equal. apply map_ext. intros x.
  replace (1 / (1 - sum (sq p)) * norm v) with (norm v / (1 - sum (sq p)))
    by (unfold Rdiv; ring).
  unfold Rdiv. ring.
Qed.

Lemma exp_formula_witness :
  Metric.exp (Arr1 [1; 0]) (Arr1 [1/2; 0]) =
  Metric.mobius_add (Arr1 [1/2; 0])
    (Arr1 (map (fun x => x / norm [1; 0] *
                         tanh (norm [1; 0] / (1 - sum (sq [1/2; 0]))))
               [1; 0])).
Proof.
  apply (exp_formula [1; 0] [1/2; 0]). unfold atol. simpl. lra.
Defined.

(** X23: for two points of the ball whose Moebius difference [u] is
    beyond the near-zero threshold, [log] returns
    [(1 - |p|^2) * arctanh |u| * u / |u|]. *)
Theorem log_formula (x p : vec) :
  Spec.in_ball p -> Spec.in_ball x ->
  atol < norm (Spec.mobius (map Ropp p) x) ->
  Metric.log (Arr1 x) (Arr1 p) =
  Ok [map (fun y =>
             (1 - sum (sq p)) *
             arctanh (norm (Spec.mobius (map Ropp p) x)) *
             (y / norm (Spec.mobius (map Ropp p) x)))
          (Spec.mobius (map Ropp p) x)].
Proof.
  intros Hp Hx Hu. rewrite <- norm_sq.
  apply log_single.
  - apply mobius_add_single; [now apply in_ball_opp | exact Hx].
  - apply isclose_0_false. rewrite Rabs_pos_eq; [exact Hu|].
    apply norm_nonneg.
Qed.

Lemma log_formula_witness :
  Metric.log (Arr1 [1/2]) (Arr1 [0]) =
  Ok [map (fun y =>
             (1 - sum (sq [0])) *
             arctanh (norm (Spec.mobius (map Ropp [0]) [1/2])) *
             (y / norm (Spec.mobius (map Ropp [0]) [1/2])))
          (Spec.mobius (map Ropp [0]) [1/2])].
Proof.
  apply (log_formula [1/2] [0]); [ball | ball |].
  assert (Eu : Spec.mobius (map Ropp [0]) [1/2] = [1/2]).
  { unfold Spec.mobius, dot, sum, sq. simpl. f_equal. field. }
  rewrite Eu, norm_single by lra. unfold atol. lra.
Defined.

(** X24: when the Moebius difference of two points of the ball is within
    the near-zero threshold ([|u| <= 1e-8]), [log] returns the zero
    vector. *)
Theorem log_near_zero (x p : vec) :
  Spec.in_ball p -> Spec.in_ball x -> length p = length x ->
  norm (Spec.mobius (map Ropp p) x) <= atol ->
  Metric.log (Arr1 x) (Arr1 p) = Ok [repeat 0 (length p)].
Proof.
  intros Hp Hx Hl Hu. unfold Metric.log. cbv zeta. cbn [to_ndarray map].
  change (Metric.mobius_add (Arr2 [map Ropp p]) (Arr2 [x]))
    with (Metric.mobius_add (Arr1 (map Ropp p)) (Arr1 x)).
  rewrite mobius_add_single by (try exact Hx; now apply in_ball_opp).
  cbn [map zip_with].
  rewrite isclose_0_true
    by (rewrite Rabs_pos_eq; [exact Hu | apply norm_nonneg]).
  cbn [any existsb orb]. rewrite map_const_zero, !length_map.
  rewrite mobius_lin2, lin2_length by now rewrite length_map.
  now rewrite length_map.
Qed.

Lemma log_near_zero_witness :
  Metric.log (Arr1 [1e-9]) (Arr1 [0]) = Ok [[0]].
Proof.
  apply (log_near_zero [1e-9] [0]); [ball | ball | reflexivity |].
  assert (Eu : Spec.mobius (map Ropp [0]) [1e-9] = [1e-9]).
  { unfold Spec.mobius, dot, sum, sq. simpl. f_equal. field. }
  rewrite Eu, norm_single by lra. unfold atol. lra.
Defined.

Lemma zip_with_Forall {A B C} (P : C -> Prop) (f : A -> B -> C)
      (xs : list A) (ys : list B) :
  (forall x y, P (f x y)) -> Forall P (zip_with f xs ys).
Proof.
  intros H. revert ys.
  induction xs as [|x xs IH]; intros [|y ys]; simpl; constructor;
    [apply H | apply IH].
Qed.

(** X25: for a non-negative [scale], every entry that [dist] returns is
    non-negative, for points inside the ball or not. *)
Theorem dist_nonneg (self : PoincareBallMetric) (x y : ndarray) :
  0 <= scale self ->
  Forall (fun row => exists d : R, row = [d] /\ 0 <= d)
         (Metric.dist self x y).
Proof.
  intros Hs. rewrite dist_rows, map_zip_with.
  apply zip_with_Forall. intros a b. eexists. split; [reflexivity|].
  apply Rmult_le_pos; [apply dist_row_nonneg | exact Hs].
Qed.

Lemma dist_nonneg_witness :
  Forall (fun row => exists d : R, row = [d] /\ 0 <= d)
         (Metric.dist {| dimension := 1; scale := 2 |}
                      (Arr2 [[0]; [3]]) (Arr2 [[1/2]; [0]])).
Proof.
  apply (dist_nonneg {| dimension := 1; scale := 2 |}). simpl. lra.
Defined.

(** ** Batches *)

Lemma select_nil_of_any {A} (xs : list A) (mask : list bool) :
  any mask = false -> select xs mask = [].
Proof.
  revert mask. induction xs as [|x xs IH]; intros [|m mask]; simpl;
    try reflexivity.
  destruct m; simpl; [discriminate | apply IH].
Qed.

Lemma fill_of_select_nil {A} (xs : list A) (mask : list bool) (c : A) :
  select xs mask = [] -> fill xs mask c = xs.
Proof.
  revert mask. induction xs as [|x xs IH]; intros [|m mask]; simpl;
    try reflexivity.
  destruct m; [discriminate|]. intros H. now rewrite IH.
Qed.

Lemma assign_of_select_nil {A} (xs : list A) (mask : list bool)
      (vals : list A) :
  select xs mask = [] -> assign xs mask vals = xs.
Proof.
  revert mask. induction xs as [|x xs IH]; intros [|m mask]; simpl;
    try reflexivity.
  destruct m; [discriminate|]. intros H. now rewrite IH.
Qed.

Lemma length_zero_nil {A} (xs : list A) :
  Nat.eqb (length xs) 0 = true -> xs = [].
Proof. destruct xs; [reflexivity | discriminate]. Qed.

(** The two guards around a masked assignment do not change it. *)
Lemma guarded_fill {A} (xs : list A) (mask : list bool) (c : A) :
  (if any mask
   then if negb (Nat.eqb (length (select xs mask)) 0)
        then fill xs mask c else xs
   else xs) = fill xs mask c.
Proof.
  destruct (any mask) eqn:Ha.
  - destruct (Nat.eqb (length (select xs mask)) 0) eqn:Hl; simpl;
      [|reflexivity].
    symmetry. now apply fill_of_select_nil, length_zero_nil.
  - symmetry. now apply fill_of_select_nil, select_nil_of_any.
Qed.

Lemma guarded_assign {A} (xs : list A) (mask : list bool) (vals : list A) :
  (if any mask
   then if negb (Nat.eqb (length (select xs mask)) 0)
        then assign xs mask vals else xs
   else xs) = assign xs mask vals.
Proof.
  destruct (any mask) eqn:Ha.
  - destruct (Nat.eqb (length (select xs mask)) 0) eqn:Hl; simpl;
      [|reflexivity].
    symmetry. now apply assign_of_select_nil, length_zero_nil.
  - symmetry. now apply assign_of_select_nil, select_nil_of_any.
Qed.

Lemma exp_operands (vs ps : batch) :
  let norm_tan := fill (map norm vs) (Metric.zero_mask vs) EPSILON in
  zip_with (fun d f => map (fun x => x * f) d)
    (zip_with (fun v n => map (fun x => x * (1 / n)) v) vs norm_tan)
    (zip_with (fun l n => tanh (l * n))
       (map (fun d => 1 / d) (map (fun x => 1 - x ^ 2) (map norm ps)))
       norm_tan) =
  zip_with Spec.exp_operand vs ps.
Proof.
  cbv zeta. revert ps.
  induction vs as [|v vs IH]; intros [|p ps]; try reflexivity.
  cbn [map zip_with Metric.zero_mask fill]. unfold Metric.zero_mask in IH.
  rewrite IH. f_equal.
  unfold Spec.exp_operand. cbv zeta. rewrite map_map.
  destruct (isclose _ 0); reflexivity.
Qed.

Lemma assign_select_snap (vs ps es : batch) :
  length vs = length ps -> length es = length ps ->
  assign es (Metric.zero_mask vs) (select ps (Metric.zero_mask vs)) =
  zip_with Spec.exp_snap (combine vs ps) es.
Proof.
  revert ps es.
  induction vs as [|v vs IH]; intros [|p ps] [|e es] Hv He;
    try discriminate; try reflexivity.
  injection Hv as Hv. injection He as He.
  cbn [Metric.zero_mask map select assign combine zip_with].
  unfold Spec.exp_snap at 1. cbn [fst snd].
  unfold Metric.zero_mask in IH.
  destruct (isclose _ 0); cbn [assign]; now rewrite IH.
Qed.

Lemma mobius_add_Ok_iff (a b : batch) (r : batch) :
  Metric.mobius_add (Arr2 a) (Arr2 b) = Ok r <->
  all (map (PoincareBall.belongs_row TOLERANCE) a) = true /\
  all (map (PoincareBall.belongs_row TOLERANCE) b) = true /\
  r = zip_with Metric.mobius_add_row a b.
Proof.
  unfold Metric.mobius_add. cbn [to_ndarray PoincareBall.belongs].
  destruct (all (map _ a)); destruct (all (map _ b)); simpl; split;
    try discriminate; try (intros (? & ? & ?); discriminate).
  - intros H. injection H as <-. auto.
  - intros (_ & _ & ->). reflexivity.
Qed.

Lemma exp_normal (vs ps : batch) :
  length vs = length ps ->
  Metric.exp (Arr2 vs) (Arr2 ps) =
  match Metric.mobius_add (Arr2 ps)
          (Arr2 (zip_with Spec.exp_operand vs ps)) with
  | Raise e => Raise e
  | Ok es => Ok (zip_with Spec.exp_snap (combine vs ps) es)
  end.
Proof.
  intros Hl. unfold Metric.exp. cbv zeta. cbn [to_ndarray].
  rewrite guarded_fill.
  pose proof (exp_operands vs ps) as Ho. cbv zeta in Ho. rewrite Ho.
  destruct (Metric.mobius_add _ _) as [es|e] eqn:Hm; [|reflexivity].
  rewrite guarded_assign. f_equal.
  apply assign_select_snap; [exact Hl|].
  apply mobius_add_Ok_iff in Hm as (_ & _ & ->).
  rewrite !zip_with_length, <- Hl. lia.
Qed.

Lemma exp_Ok_iff (vs ps xs : batch) :
  length vs = length ps ->
  Metric.exp (Arr2 vs) (Arr2 ps) = Ok xs <->
  all (map (PoincareBall.belongs_row TOLERANCE) ps) = true /\
  all (map (PoincareBall.belongs_row TOLERANCE)
         (zip_with Spec.exp_operand vs ps)) = true /\
  xs = zip_with Spec.exp_snap (combine vs ps)
         (zip_with Metric.mobius_add_row ps
            (zip_with Spec.exp_operand vs ps)).
Proof.
  intros Hl. rewrite (exp_normal vs ps Hl).
  destruct (Metric.mobius_add _ _) as [es|e] eqn:Hm.
  - apply mobius_add_Ok_iff in Hm as (Ha & Hb & ->). split.
    + intros H. injection H as <-. auto.
    + intros (_ & _ & ->). reflexivity.
  - split; [discriminate|]. intros (Ha & Hb & _).
    assert (H : Metric.mobius_add (Arr2 ps)
                  (Arr2 (zip_with Spec.exp_operand vs ps)) =
                Ok (zip_with Metric.mobius_add_row ps
                      (zip_with Spec.exp_operand vs ps)))
      by (apply mobius_add_Ok_iff; auto).
    rewrite H in Hm. discriminate.
Qed.

Lemma exp_batch_rows (vs ps xs : batch) :
  length vs = length ps ->
  Metric.exp (Arr2 vs) (Arr2 ps) = Ok xs <->
  Forall2 (fun vp x => Metric.exp (Arr1 (fst vp)) (Arr1 (snd vp)) = Ok [x])
          (combine vs ps) xs.
Proof.
  revert ps xs. induction vs as [|v vs IH]; intros [|p ps] xs Hl;
    try discriminate.
  - rewrite (exp_Ok_iff [] [] xs eq_refl). simpl. split.
    + intros (_ & _ & ->). constructor.
    + intros H. inversion H. auto.
  - injection Hl as Hl.
    rewrite (exp_Ok_iff (v :: vs) (p :: ps) xs) by (simpl; now rewrite Hl).
    cbn [combine map zip_with all forallb]. split.
    + intros (Ha & Hb & ->).
      apply andb_prop in Ha as (Hp & Hps).
      apply andb_prop in Hb as (Ho & Hos).
      constructor.
      * cbn [fst snd].
        change (Metric.exp (Arr1 v) (Arr1 p))
          with (Metric.exp (Arr2 [v]) (Arr2 [p])).
        apply (exp_Ok_iff [v] [p]); [reflexivity|].
        cbn [combine map zip_with all forallb]. rewrite Hp, Ho. auto.
      * apply (IH ps); [exact Hl|]. apply exp_Ok_iff; auto.
    + intros H. inversion H as [|vp x l xs' Hrow Hrest]; subst.
      cbn [fst snd] in Hrow.
      change (Metric.exp (Arr1 v) (Arr1 p))
        with (Metric.exp (Arr2 [v]) (Arr2 [p])) in Hrow.
      apply (exp_Ok_iff [v] [p]) in Hrow; [|reflexivity].
      cbn [combine map zip_with all forallb] in Hrow.
      destruct Hrow as (Hp & Ho & Hx). injection Hx as ->.
      apply (IH ps) in Hrest; [|exact Hl].
      apply exp_Ok_iff in Hrest as (Hps & Hos & ->); [|exact Hl].
      rewrite andb_true_r in Hp, Ho.
      unfold all in *. rewrite Hp, Ho, Hps, Hos. auto.
Qed.

Lemma mobius_add_raise_iff (pa pb : ndarray) (e : exn) :
  Metric.mobius_add pa pb = Raise e -> e = not_in_ball.
Proof.
  unfold Metric.mobius_add.
  destruct (negb _ || negb _); [|discriminate].
  intros H. now injection H.
Qed.

Lemma exp_raise_not_in_ball (tv bp : ndarray) (e : exn) :
  Metric.exp tv bp = Raise e -> e = not_in_ball.
Proof.
  unfold Metric.exp. cbv zeta.
  destruct (Metric.mobius_add _ _) as [es|e'] eqn:Hm; [discriminate|].
  intros H. injection H as <-. now apply mobius_add_raise_iff in Hm.
Qed.

Lemma rows_ok_or_raise {A} (f : A -> result batch) (l : list A) :
  (forall a, In a l -> (exists x, f a = Ok [x]) \/ f a = Raise not_in_ball) ->
  (exists xs, Forall2 (fun a x => f a = Ok [x]) l xs) \/
  Exists (fun a => f a = Raise not_in_ball) l.
Proof.
  induction l as [|a l IH]; intros H.
  - left. exists []. constructor.
  - destruct (H a (or_introl eq_refl)) as [(x & Hx) | Hr].
    + destruct IH as [(xs & Hxs) | He].
      * intros a' Ha'. apply H. now right.
      * left. exists (x :: xs). now constructor.
      * right. now apply Exists_cons_tl.
    + right. now apply Exists_cons_hd.
Qed.

Lemma exp_single_shape (v p : vec) :
  (exists x, Metric.exp (Arr1 v) (Arr1 p) = Ok [x]) \/
  Metric.exp (Arr1 v) (Arr1 p) = Raise not_in_ball.
Proof.
  destruct (Metric.exp (Arr1 v) (Arr1 p)) as [r|e] eqn:He.
  - left.
    change (Metric.exp (Arr1 v) (Arr1 p))
      with (Metric.exp (Arr2 [v]) (Arr2 [p])) in He.
    apply (exp_Ok_iff [v] [p]) in He as (_ & _ & ->); [|reflexivity].
    eexists. reflexivity.
  - right. now rewrite (exp_raise_not_in_ball _ _ _ He).
Qed.

(** X26: on two batches of the same length, [exp] returns the rows that
    [exp] returns on each pair of rows, in order, and it raises the
    domain error exactly when [exp] raises it on some pair of rows: the
    masked assignments act row by row. *)
Theorem exp_batch (vs ps : batch) :
  length vs = length ps ->
  (forall xs,
      Metric.exp (Arr2 vs) (Arr2 ps) = Ok xs <->
      Forall2 (fun vp x =>
                 Metric.exp (Arr1 (fst vp)) (Arr1 (snd vp)) = Ok [x])
              (combine vs ps) xs) /\
  (Metric.exp (Arr2 vs) (Arr2 ps) = Raise not_in_ball <->
   Exists (fun vp =>
             Metric.exp (Arr1 (fst vp)) (Arr1 (snd vp)) = Raise not_in_ball)
          (combine vs ps)).
Proof.
  intros Hl. split; [intros xs; now apply exp_batch_rows|].
  split.
  - intros Hr.
    destruct (rows_ok_or_raise
                (fun vp => Metric.exp (Arr1 (fst vp)) (Arr1 (snd vp)))
                (combine vs ps)) as [(xs & Hxs) | He].
    + intros vp _. apply exp_single_shape.
    + apply exp_batch_rows in Hxs; [|exact Hl].
      rewrite Hxs in Hr. discriminate.
    + exact He.
  - intros He.
    destruct (Metric.exp (Arr2 vs) (Arr2 ps)) as [xs|e] eqn:Hb.
    + exfalso. apply exp_batch_rows in Hb; [|exact Hl].
      clear Hl. induction Hb as [|vp x l xs' Hrow Hrest IH].
      * inversion He.
      * inversion He as [? ? Hh | ? ? Ht]; subst.
        -- rewrite Hrow in Hh. discriminate.
        -- now apply IH.
    + now rewrite (exp_raise_not_in_ball _ _ _ Hb).
Qed.

Lemma exp_batch_witness :
  Metric.exp (Arr2 [[0]; [0]]) (Arr2 [[1/2]; [1/3]]) = Ok [[1/2]; [1/3]].
Proof.
  apply (proj1 (exp_batch [[0]; [0]] [[1/2]; [1/3]] eq_refl)).
  constructor; [|constructor; [|constructor]]; cbn [fst snd].
  - apply (exp_Ok_iff [[0]] [[1/2]] _ eq_refl). repeat split.
    + apply all_belongs_inside. intros q [<- | []]. unfold TOLERANCE.
      simpl. lra.
    + apply all_belongs_inside. intros q [<- | []]. unfold TOLERANCE.
      unfold Spec.exp_operand. simpl. lra.
    + cbn [combine zip_with]. unfold Spec.exp_snap. cbn [fst snd].
      change [0] with (repeat 0 1).
      now rewrite zip_with_zeros, isclose_refl_0.
  - apply (exp_Ok_iff [[0]] [[1/3]] _ eq_refl). repeat split.
    + apply all_belongs_inside. intros q [<- | []]. unfold TOLERANCE.
      simpl. lra.
    + apply all_belongs_inside. intros q [<- | []]. unfold TOLERANCE.
      unfold Spec.exp_operand. simpl. lra.
    + cbn [combine zip_with]. unfold Spec.exp_snap. cbn [fst snd].
      change [0] with (repeat 0 1).
      now rewrite zip_with_zeros, isclose_refl_0.
Defined.

Lemma override_id {A} (z : A -> A) (mask : list bool) (rows : list A) :
  any mask = false ->
  length rows = length mask ->
  zip_with (fun (m : bool) row => if m then z row else row) mask rows = rows.
Proof.
  revert rows. induction mask as [|m mask IH]; intros [|r rows] Ha Hl;
    try discriminate; try reflexivity.
  simpl in Ha. destruct m; [discriminate|]. simpl in Ha.
  injection Hl as Hl. simpl. now rewrite IH.
Qed.

Lemma log_rows (ps us : batch) :
  length us = length ps ->
  let norm_add := map norm us in
  let log :=
    zip_with (fun l u => map (fun x => l * x) u)
      (zip_with (fun nb na => (1 - nb ^ 2) * arctanh na)
         (map norm ps) norm_add)
      (zip_with (fun u n => map (fun x => x / n) u) us norm_add) in
  let mask_0 := map (fun n => isclose n 0) norm_add in
  (if any mask_0
   then zip_with (fun (m : bool) row =>
                    if m then map (fun _ => 0) row else row) mask_0 log
   else log) = zip_with Spec.log_row ps us.
Proof.
  intros Hl. cbv zeta.
  set (log := zip_with _ (zip_with _ (map norm ps) _) _).
  set (mask := map _ (map norm us)).
  assert (Hlen : length log = length mask).
  { unfold log, mask. rewrite !zip_with_length, !length_map.
    unfold batch, vec in *. lia. }
  assert (E : zip_with (fun (m : bool) row =>
                          if m then map (fun _ => 0) row else row) mask log =
              zip_with Spec.log_row ps us).
  { unfold log, mask. clear. revert us.
    induction ps as [|p ps IH]; intros [|u us]; try reflexivity.
    cbn [map zip_with]. rewrite IH. f_equal.
    unfold Spec.log_row. destruct (isclose (norm u) 0).
    - rewrite !map_const_zero, !length_map. reflexivity.
    - rewrite map_map. apply map_ext. intros x. ring. }
  destruct (any mask) eqn:Ha; [exact E|].
  rewrite <- E. symmetry. now apply override_id.
Qed.

Lemma log_normal (xs ps : batch) :
  length xs = length ps ->
  Metric.log (Arr2 xs) (Arr2 ps) =
  match Metric.mobius_add (Arr2 (map (map Ropp) ps)) (Arr2 xs) with
  | Raise e => Raise e
  | Ok us => Ok (zip_with Spec.log_row ps us)
  end.
Proof.
  intros Hl. unfold Metric.log. cbv zeta. cbn [to_ndarray].
  destruct (Metric.mobius_add _ _) as [us|e] eqn:Hm; [|reflexivity].
  f_equal. pose proof (log_rows ps us) as H. cbv zeta in H. apply H.
  apply mobius_add_Ok_iff in Hm as (_ & _ & ->).
  rewrite zip_with_length, length_map. unfold batch, vec in *. lia.
Qed.

Lemma log_Ok_iff (xs ps rs : batch) :
  length xs = length ps ->
  Metric.log (Arr2 xs) (Arr2 ps) = Ok rs <->
  all (map (PoincareBall.belongs_row TOLERANCE) ps) = true /\
  all (map (PoincareBall.belongs_row TOLERANCE) xs) = true /\
  rs = zip_with Spec.log_row ps
         (zip_with Metric.mobius_add_row (map (map Ropp) ps) xs).
Proof.
  intros Hl. rewrite (log_normal xs ps Hl).
  assert (Hb : map (PoincareBall.belongs_row TOLERANCE)
                   (map (map Ropp) ps) =
               map (PoincareBall.belongs_row TOLERANCE) ps).
  { rewrite map_map. apply map_ext. intros p. apply belongs_row_opp. }
  destruct (Metric.mobius_add _ _) as [us|e] eqn:Hm.
  - apply mobius_add_Ok_iff in Hm as (Ha & Hx & ->). rewrite Hb in Ha.
    split.
    + intros H. injection H as <-. auto.
    + intros (_ & _ & ->). reflexivity.
  - split; [discriminate|]. intros (Ha & Hx & _).
    assert (H : Metric.mobius_add (Arr2 (map (map Ropp) ps)) (Arr2 xs) =
                Ok (zip_with Metric.mobius_add_row (map (map Ropp) ps) xs)).
    { apply mobius_add_Ok_iff. rewrite Hb. auto. }
    rewrite H in Hm. discriminate.
Qed.

Lemma log_batch_rows (xs ps rs : batch) :
  length xs = length ps ->
  Metric.log (Arr2 xs) (Arr2 ps) = Ok rs <->
  Forall2 (fun xp r => Metric.log (Arr1 (fst xp)) (Arr1 (snd xp)) = Ok [r])
          (combine xs ps) rs.
Proof.
  revert ps rs. induction xs as [|x xs IH]; intros [|p ps] rs Hl;
    try discriminate.
  - rewrite (log_Ok_iff [] [] rs eq_refl). simpl. split.
    + intros (_ & _ & ->). constructor.
    + intros H. inversion H. auto.
  - injection Hl as Hl.
    rewrite (log_Ok_iff (x :: xs) (p :: ps) rs) by (simpl; now rewrite Hl).
    cbn [combine map zip_with all forallb]. split.
    + intros (Ha & Hb & ->).
      apply andb_prop in Ha as (Hp & Hps).
      apply andb_prop in Hb as (Hx & Hxs).
      constructor.
      * cbn [fst snd].
        change (Metric.log (Arr1 x) (Arr1 p))
          with (Metric.log (Arr2 [x]) (Arr2 [p])).
        apply (log_Ok_iff [x] [p]); [reflexivity|].
        cbn [combine map zip_with all forallb]. rewrite Hp, Hx. auto.
      * apply (IH ps); [exact Hl|]. apply log_Ok_iff; auto.
    + intros H. inversion H as [|xp r l rs' Hrow Hrest]; subst.
      cbn [fst snd] in Hrow.
      change (Metric.log (Arr1 x) (Arr1 p))
        with (Metric.log (Arr2 [x]) (Arr2 [p])) in Hrow.
      apply (log_Ok_iff [x] [p]) in Hrow; [|reflexivity].
      cbn [combine map zip_with all forallb] in Hrow.
      destruct Hrow as (Hp & Hx & Hr). injection Hr as ->.
      apply (IH ps) in Hrest; [|exact Hl].
      apply log_Ok_iff in Hrest as (Hps & Hxs & ->); [|exact Hl].
      rewrite andb_true_r in Hp, Hx.
      unfold all in *. rewrite Hp, Hx, Hps, Hxs. auto.
Qed.

Lemma log_raise_not_in_ball (pt bp : ndarray) (e : exn) :
  Metric.log pt bp = Raise e -> e = not_in_ball.
Proof.
  unfold Metric.log. cbv zeta.
  destruct (Metric.mobius_add _ _) as [es|e'] eqn:Hm; [discriminate|].
  intros H. injection H as <-. now apply mobius_add_raise_iff in Hm.
Qed.

Lemma log_single_shape (x p : vec) :
  (exists r, Metric.log (Arr1 x) (Arr1 p) = Ok [r]) \/
  Metric.log (Arr1 x) (Arr1 p) = Raise not_in_ball.
Proof.
  destruct (Metric.log (Arr1 x) (Arr1 p)) as [r|e] eqn:He.
  - left.
    change (Metric.log (Arr1 x) (Arr1 p))
      with (Metric.log (Arr2 [x]) (Arr2 [p])) in He.
    apply (log_Ok_iff [x] [p]) in He as (_ & _ & ->); [|reflexivity].
    eexists. reflexivity.
  - right. now rewrite (log_raise_not_in_ball _ _ _ He).
Qed.

Lemma no_raise_in_rows {A} (f : A -> result batch) (l : list A)
      (xs : batch) :
  Forall2 (fun a x => f a = Ok [x]) l xs ->
  Exists (fun a => f a = Raise not_in_ball) l -> False.
Proof.
  intros Hb He. induction Hb as [|a x l xs' Hrow Hrest IH].
  - inversion He.
  - inversion He as [? ? Hh | ? ? Ht]; subst.
    + rewrite Hrow in Hh. discriminate.
    + now apply IH.
Qed.

(** X27: on two batches of the same length, [log] returns the rows that
    [log] returns on each pair of rows, in order, and it raises the
    domain error exactly when [log] raises it on some pair of rows. *)
Theorem log_batch (xs ps : batch) :
  length xs = length ps ->
  (forall rs,
      Metric.log (Arr2 xs) (Arr2 ps) = Ok rs <->
      Forall2 (fun xp r =>
                 Metric.log (Arr1 (fst xp)) (Arr1 (snd xp)) = Ok [r])
              (combine xs ps) rs) /\
  (Metric.log (Arr2 xs) (Arr2 ps) = Raise not_in_ball <->
   Exists (fun xp =>
             Metric.log (Arr1 (fst xp)) (Arr1 (snd xp)) = Raise not_in_ball)
          (combine xs ps)).
Proof.
  intros Hl. split; [intros rs; now apply log_batch_rows|].
  split.
  - intros Hr.
    destruct (rows_ok_or_raise
                (fun xp => Metric.log (Arr1 (fst xp)) (Arr1 (snd xp)))
                (combine xs ps)) as [(rs & Hrs) | He].
    + intros xp _. apply log_single_shape.
    + apply log_batch_rows in Hrs; [|exact Hl].
      rewrite Hrs in Hr. discriminate.
    + exact He.
  - intros He.
    destruct (Metric.log (Arr2 xs) (Arr2 ps)) as [rs|e] eqn:Hb.
    + exfalso. apply log_batch_rows in Hb; [|exact Hl].
      exact (no_raise_in_rows _ _ _ Hb He).
    + now rewrite (log_raise_not_in_ball _ _ _ Hb).
Qed.

Lemma log_batch_witness :
  Metric.log (Arr2 [[1/2]; [1]]) (Arr2 [[1/2]; [0]]) = Raise not_in_ball.
Proof.
  apply (proj2 (log_batch [[1/2]; [1]] [[1/2]; [0]] eq_refl)).
  apply Exists_cons_tl, Exists_cons_hd. cbn [fst snd].
  apply log_raises_point, belongs_row_false.
  unfold TOLERANCE. simpl. lra.
Defined.

Lemma mobius_add_single_shape (a b : vec) :
  (exists x, Metric.mobius_add (Arr1 a) (Arr1 b) = Ok [x]) \/
  Metric.mobius_add (Arr1 a) (Arr1 b) = Raise not_in_ball.
Proof.
  destruct (Metric.mobius_add (Arr1 a) (Arr1 b)) as [r|e] eqn:He.
  - left. apply mobius_add_single_inv in He as (_ & _ & ->).
    eexists. reflexivity.
  - right. now rewrite (mobius_add_raise_iff _ _ _ He).
Qed.

Lemma mobius_add_batch_rows (xs ys rs : batch) :
  length xs = length ys ->
  Metric.mobius_add (Arr2 xs) (Arr2 ys) = Ok rs <->
  Forall2 (fun ab r =>
             Metric.mobius_add (Arr1 (fst ab)) (Arr1 (snd ab)) = Ok [r])
          (combine xs ys) rs.
Proof.
  revert ys rs. induction xs as [|a xs IH]; intros [|b ys] rs Hl;
    try discriminate.
  - rewrite mobius_add_Ok_iff. simpl. split.
    + intros (_ & _ & ->). constructor.
    + intros H. inversion H. auto.
  - injection Hl as Hl. rewrite mobius_add_Ok_iff.
    cbn [combine map zip_with all forallb]. split.
    + intros (Ha & Hb & ->).
      apply andb_prop in Ha as (Ha & Has).
      apply andb_prop in Hb as (Hb & Hbs).
      constructor.
      * cbn [fst snd].
        change (Metric.mobius_add (Arr1 a) (Arr1 b))
          with (Metric.mobius_add (Arr2 [a]) (Arr2 [b])).
        apply mobius_add_Ok_iff.
        cbn [map zip_with all forallb]. rewrite Ha, Hb. auto.
      * apply (IH ys); [exact Hl|]. apply mobius_add_Ok_iff; auto.
    + intros H. inversion H as [|ab r l rs' Hrow Hrest]; subst.
      cbn [fst snd] in Hrow.
      change (Metric.mobius_add (Arr1 a) (Arr1 b))
        with (Metric.mobius_add (Arr2 [a]) (Arr2 [b])) in Hrow.
      apply mobius_add_Ok_iff in Hrow.
      cbn [map zip_with all forallb] in Hrow.
      destruct Hrow as (Ha & Hb & Hr). injection Hr as ->.
      apply (IH ys) in Hrest; [|exact Hl].
      apply mobius_add_Ok_iff in Hrest as (Has & Hbs & ->).
      rewrite andb_true_r in Ha, Hb.
      unfold all in *. rewrite Ha, Hb, Has, Hbs. auto.
Qed.

(** X28: on two batches of the same length, [mobius_add] returns the
    rows that it returns on each pair of rows, in order, and it raises
    the domain error exactly when it raises it on some pair of rows. *)
Theorem mobius_add_batch (xs ys : batch) :
  length xs = length ys ->
  (forall rs,
      Metric.mobius_add (Arr2 xs) (Arr2 ys) = Ok rs <->
      Forall2 (fun ab r =>
                 Metric.mobius_add (Arr1 (fst ab)) (Arr1 (snd ab)) = Ok [r])
              (combine xs ys) rs) /\
  (Metric.mobius_add (Arr2 xs) (Arr2 ys) = Raise not_in_ball <->
   Exists (fun ab =>
             Metric.mobius_add (Arr1 (fst ab)) (Arr1 (snd ab)) =
             Raise not_in_ball)
          (combine xs ys)).
Proof.
  intros Hl. split; [intros rs; now apply mobius_add_batch_rows|].
  split.
  - intros Hr.
    destruct (rows_ok_or_raise
                (fun ab => Metric.mobius_add (Arr1 (fst ab)) (Arr1 (snd ab)))
                (combine xs ys)) as [(rs & Hrs) | He].
    + intros ab _. apply mobius_add_single_shape.
    + apply mobius_add_batch_rows in Hrs; [|exact Hl].
      rewrite Hrs in Hr. discriminate.
    + exact He.
  - intros He.
    destruct (Metric.mobius_add (Arr2 xs) (Arr2 ys)) as [rs|e] eqn:Hb.
    + exfalso. apply mobius_add_batch_rows in Hb; [|exact Hl].
      exact (no_raise_in_rows _ _ _ Hb He).
    + now rewrite (mobius_add_raise_iff _ _ _ Hb).
Qed.

Lemma mobius_add_batch_witness :
  Metric.mobius_add (Arr2 [[1/2]; [1]]) (Arr2 [[1/2]; [0]]) =
  Raise not_in_ball.
Proof.
  apply (proj2 (mobius_add_batch [[1/2]; [1]] [[1/2]; [0]] eq_refl)).
  apply Exists_cons_tl, Exists_cons_hd. cbn [fst snd].
  apply mobius_add_raises. left. apply belongs_outside.
  exists [1]. split; [now left|]. unfold TOLERANCE. simpl. lra.
Defined.

Lemma retraction_rows (d : nat) (ts ps : batch) :
  (forall p, In p ps -> length p = d) ->
  zip_with (zip_with Rminus) ps
    (zip_with (zip_with Rmult)
       (map (fun f => repeat f d)
          (map (fun p => (1 - sum (sq p)) ^ 2 / 4) ps))
       ts) =
  zip_with Spec.retract ts ps.
Proof.
  revert ts. induction ps as [|p ps IH]; intros [|t ts] Hd;
    try reflexivity.
  cbn [map zip_with]. rewrite IH by (intros q Hq; apply Hd; now right).
  f_equal. apply retract_row, Hd. now left.
Qed.

(** X29: on a batch of base points that all pass [belongs] and all have
    the same dimension, [retraction] returns
    [base_point - (1 - |base_point|^2)^2 / 4 * tangent_vec] row by row,
    in order. *)
Theorem retraction_batch (d : nat) (ts ps : batch) :
  Spec.all_in_ball (Arr2 ps) ->
  (forall p, In p ps -> length p = d) ->
  Metric.retraction (Arr2 ts) (Arr2 ps) = Ok (zip_with Spec.retract ts ps).
Proof.
  intros Hb Hd. rewrite (retraction_ok _ _ Hb). cbn [to_ndarray]. f_equal.
  destruct ps as [|p ps]; [now destruct ts|].
  assert (Hs : Metric.shape1 (p :: ps) = d) by (apply Hd; now left).
  rewrite Hs. now apply retraction_rows.
Qed.

Lemma retraction_batch_witness :
  Metric.retraction (Arr2 [[1; 1]; [0; 2]]) (Arr2 [[1/2; 0]; [0; 0]]) =
  Ok (zip_with Spec.retract [[1; 1]; [0; 2]] [[1/2; 0]; [0; 0]]).
Proof.
  apply (retraction_batch 2); [ball|].
  intros p [<- | [<- | []]]; reflexivity.
Defined.

(** ** The metric properties of [dist] *)

(** C5: [dist] of a point with itself is zero; [dist] is symmetric; for
    a scale that is not zero it is zero only when the two points are
    equal; a metric of scale [s] returns [s] times the distance of the
    metric of scale one; and, for a non-negative scale, [dist] satisfies
    the triangle inequality on the points of the ball. *)
Theorem dist_properties (self : PoincareBallMetric) :
  (forall p : vec, Metric.dist self (Arr1 p) (Arr1 p) = [[0]]) /\
  (forall a b : vec,
      Metric.dist self (Arr1 a) (Arr1 b) =
      Metric.dist self (Arr1 b) (Arr1 a)) /\
  (forall a b : vec,
      scale self <> 0 -> length a = length b ->
      Metric.dist self (Arr1 a) (Arr1 b) = [[0]] -> a = b) /\
  (forall a b : vec,
      exists d : R,
        Metric.dist {| dimension := dimension self; scale := 1 |}
                    (Arr1 a) (Arr1 b) = [[d]] /\
        Metric.dist self (Arr1 a) (Arr1 b) = [[scale self * d]]) /\
  (forall a b c : vec,
      0 <= scale self ->
      Spec.in_ball a -> Spec.in_ball b -> Spec.in_ball c ->
      length a = length b -> length b = length c ->
      exists dab dbc dac : R,
        Metric.dist self (Arr1 a) (Arr1 b) = [[dab]] /\
        Metric.dist self (Arr1 b) (Arr1 c) = [[dbc]] /\
        Metric.dist self (Arr1 a) (Arr1 c) = [[dac]] /\
        dac <= dab + dbc).
Proof.
  repeat split.
  - intros p. rewrite dist_single, dist_row_self. do 2 f_equal. ring.
  - intros a b. rewrite !dist_single. now rewrite (dist_row_sym a b).
  - intros a b Hs Hl H. rewrite dist_single in H. injection H as H.
    apply dist_row_zero; [exact Hl|].
    apply Rmult_integral in H. destruct H as [H | H]; [exact H | easy].
  - intros a b. exists (Metric.dist_row a b). rewrite !dist_single.
    split; do 2 f_equal; simpl; ring.
  - intros a b c Hs Ha Hb Hc Hab Hbc.
    exists (Metric.dist_row a b * scale self),
           (Metric.dist_row b c * scale self),
           (Metric.dist_row a c * scale self).
    repeat split; try apply dist_single.
    pose proof (dist_row_triangle a b c Ha Hb Hc Hab Hbc). nra.
Qed.

Lemma dist_properties_witness :
  ([1/2; 0] = [1/2; 0]) /\
  exists dab dbc dac : R,
    Metric.dist {| dimension := 1; scale := 2 |} (Arr1 [0]) (Arr1 [1/2])
    = [[dab]] /\
    Metric.dist {| dimension := 1; scale := 2 |} (Arr1 [1/2]) (Arr1 [-1/2])
    = [[dbc]] /\
    Metric.dist {| dimension := 1; scale := 2 |} (Arr1 [0]) (Arr1 [-1/2])
    = [[dac]] /\
    dac <= dab + dbc.
Proof.
  split.
  - apply (proj1 (proj2 (proj2 (dist_properties
                                  {| dimension := 2; scale := 1 |})))
             [1/2; 0] [1/2; 0]).
    + simpl. lra.
    + reflexivity.
    + apply (proj1 (dist_properties {| dimension := 2; scale := 1 |})).
  - apply (proj2 (proj2 (proj2 (proj2 (dist_properties
                                         {| dimension := 1; scale := 2 |}))))
             [0] [1/2] [-1/2]); try reflexivity; try (simpl; lra); ball.
Defined.

(** ** [log] after [exp] *)

Lemma log_at_base_point (p : vec) :
  Spec.in_ball p ->
  Metric.log (Arr1 p) (Arr1 p) = Ok [repeat 0 (length p)].
Proof.
  intros Hp.
  assert (Hm : Metric.mobius_add (Arr1 (map Ropp p)) (Arr1 p) =
               Ok [repeat 0 (length p)]).
  { rewrite mobius_add_single by (try exact Hp; now apply in_ball_opp).
    now rewrite <- mobius_add_row_formula, mobius_add_row_opp. }
  unfold Metric.log. cbv zeta. cbn [to_ndarray map].
  change (Metric.mobius_add (Arr2 [map Ropp p]) (Arr2 [p]))
    with (Metric.mobius_add (Arr1 (map Ropp p)) (Arr1 p)).
  rewrite Hm. cbn [map zip_with]. rewrite norm_zeros, isclose_refl_0.
  cbn [any existsb orb]. rewrite map_const_zero, !length_map.
  now rewrite repeat_length.
Qed.

(** [log] of the Moebius sum of a base point and the operand of [exp]. *)
Lemma log_of_exp_row (v p : vec) :
  Spec.in_ball p -> length v = length p -> atol < sum (sq v) ->
  Spec.in_ball (Spec.exp_operand v p) ->
  Spec.in_ball (Spec.mobius p (Spec.exp_operand v p)) ->
  Metric.log (Arr1 (Spec.mobius p (Spec.exp_operand v p))) (Arr1 p) =
  Ok [v].
Proof.
  intros Hp Hl Hv Hw Hx.
  assert (Ew : Spec.exp_operand v p =
               map (fun y => y * (1 / norm v *
                                  tanh (1 / (1 - norm p ^ 2) * norm v))) v).
  { unfold Spec.exp_operand. cbv zeta. rewrite (zero_mask_false v Hv).
    apply map_ext. intros y. ring. }
  set (w := Spec.exp_operand v p) in *.
  set (n := norm v) in *.
  set (f := tanh (1 / (1 - norm p ^ 2) * n)) in *.
  assert (Hn : 1e-4 < n) by now apply norm_above_atol.
  assert (Hn2 : n ^ 2 = sum (sq v)) by apply norm_sq.
  pose proof (in_ball_lt_1 p Hp) as Hp1.
  pose proof (sum_sq_nonneg p) as Hp0.
  assert (Hlam : 1e-4 <= 1 / (1 - norm p ^ 2) * n).
  { rewrite norm_sq.
    apply Rmult_le_reg_r with (1 - sum (sq p)); [lra|].
    replace (1 / (1 - sum (sq p)) * n * (1 - sum (sq p))) with n
      by (field; lra).
    nra. }
  assert (Hf : atol < f) by now apply tanh_above_atol.
  assert (Hf0 : 0 < f) by (unfold atol in Hf; lra).
  assert (Hlw : length p = length w) by (rewrite Ew; now rewrite length_map).
  assert (Hnw : norm w = f).
  { unfold norm. rewrite Ew, sum_sq_scale, <- Hn2.
    replace ((1 / n * f) ^ 2 * n ^ 2) with (f * f) by (field; lra).
    apply sqrt_square. lra. }
  assert (Hu : Metric.mobius_add (Arr1 (map Ropp p))
                 (Arr1 (Spec.mobius p w)) = Ok [w]).
  { rewrite mobius_add_single by (try exact Hx; now apply in_ball_opp).
    rewrite mobius_left_cancel; [reflexivity | exact Hlw | exact Hp1|].
    now apply in_ball_lt_1. }
  rewrite (log_single _ p w Hu).
  - rewrite Hnw. unfold f at 1. rewrite arctanh_tanh.
    rewrite Ew, map_map. do 2 f_equal.
    apply map_id_ext. intros y. rewrite norm_sq. fold n. field. lra.
  - rewrite Hnw. apply isclose_0_false. rewrite Rabs_pos_eq; lra.
Qed.

Lemma exp_row_inv (v p x : vec) :
  Metric.exp (Arr1 v) (Arr1 p) = Ok [x] ->
  Spec.in_ball p /\ Spec.in_ball (Spec.exp_operand v p) /\
  x = Spec.exp_snap (v, p) (Spec.mobius p (Spec.exp_operand v p)).
Proof.
  change (Metric.exp (Arr1 v) (Arr1 p))
    with (Metric.exp (Arr2 [v]) (Arr2 [p])).
  intros H. apply (exp_Ok_iff [v] [p]) in H; [|reflexivity].
  cbn [combine map zip_with all forallb] in H.
  destruct H as (Hp & Hw & Hx). rewrite andb_true_r in Hp, Hw.
  injection Hx as ->. rewrite mobius_add_row_formula. auto.
Qed.

Lemma sum_sq_zeros_minus (v : vec) :
  sum (sq (zip_with Rminus (repeat 0 (length v)) v)) = sum (sq v).
Proof.
  rewrite zip_with_repeat_l by lia. rewrite <- (sum_sq_opp v).
  do 2 f_equal. apply map_ext. intros x. ring.
Qed.

(** C6, as amended: for a base point of the ball and a tangent vector of
    the same dimension, when [exp] returns a point that itself satisfies
    the domain predicate, [log] of that point at the base point returns
    a vector [r] with [|r - v|^2 <= 1e-8]; [r] is [v] itself when
    [|v|^2] is beyond the near-zero threshold. *)
Theorem log_exp_near (v p x : vec) :
  Spec.in_ball p -> length v = length p ->
  Metric.exp (Arr1 v) (Arr1 p) = Ok [x] ->
  Spec.in_ball x ->
  exists r : vec,
    Metric.log (Arr1 x) (Arr1 p) = Ok [r] /\
    (atol < sum (sq v) -> r = v) /\
    sum (sq (zip_with Rminus r v)) <= atol.
Proof.
  intros Hp Hl He Hx.
  destruct (Rle_dec (sum (sq v)) atol) as [Hz | Hnz].
  - destruct (exp_masked v p [x] Hz He) as (Hxp & _).
    injection Hxp as ->.
    exists (repeat 0 (length p)). split; [now apply log_at_base_point|].
    split; [lra|].
    rewrite <- Hl, sum_sq_zeros_minus. exact Hz.
  - assert (Hv : atol < sum (sq v)) by lra.
    destruct (exp_row_inv v p x He) as (_ & Hw & Ex).
    unfold Spec.exp_snap in Ex. cbn [fst snd] in Ex.
    rewrite (zero_mask_false v Hv) in Ex. subst x.
    exists v. split; [now apply log_of_exp_row|].
    split; [reflexivity|].
    rewrite sum_sq_diff_self. unfold atol. lra.
Qed.

Lemma log_exp_near_witness :
  exists x r : vec,
    Metric.exp (Arr1 [1]) (Arr1 [0]) = Ok [x] /\
    Metric.log (Arr1 x) (Arr1 [0]) = Ok [r] /\
    (atol < sum (sq [1]) -> r = [1]) /\
    sum (sq (zip_with Rminus r [1])) <= atol.
Proof.
  assert (Hv : atol < sum (sq [1])) by (unfold atol; simpl; lra).
  assert (Hn : norm [1] = 1) by (apply norm_single; lra).
  assert (Ht : tanh (norm [1]) ^ 2 < 1 - TOLERANCE)
    by (rewrite Hn; apply tanh_1_sq).
  pose proof (exp_origin [1] Hv Ht) as He. cbn [length repeat] in He.
  assert (Hx : Spec.in_ball
                 (map (fun x => x * (1 / norm [1] * tanh (norm [1]))) [1])).
  { apply in_ball_lt. rewrite sum_sq_scale, <- norm_sq.
    replace ((1 / norm [1] * tanh (norm [1])) ^ 2 * norm [1] ^ 2)
      with (tanh (norm [1]) ^ 2) by (rewrite Hn; field).
    exact Ht. }
  destruct (log_exp_near [1] [0] _ ltac:(ball) eq_refl He Hx)
    as (r & Hr).
  eexists. exists r. split; [exact He | exact Hr].
Defined.

(** C6 as first stated fails: at the base point [0.9995] the tangent
    vector [0.0059985] is well beyond the near-zero threshold and its
    operand [tanh 6] is in the ball, yet [exp] returns a point that
    fails the domain predicate and [log] raises. *)
Lemma log_exp_round_trip_fails :
  Spec.in_ball [1999/2000] /\
  atol < sum (sq [11997/2000000]) /\
  Spec.in_ball (Spec.exp_operand [11997/2000000] [1999/2000]) /\
  exists x : vec,
    Metric.exp (Arr1 [11997/2000000]) (Arr1 [1999/2000]) = Ok [x] /\
    Metric.log (Arr1 x) (Arr1 [1999/2000]) = Raise not_in_ball.
Proof.
  set (p := 1999 / 2000). set (v := 11997 / 2000000).
  assert (Hp : Spec.in_ball [p]) by (unfold p; ball).
  assert (Hv : atol < sum (sq [v])) by (unfold atol, v; simpl; lra).
  assert (Ew : Spec.exp_operand [v] [p] = [tanh 6]).
  { unfold Spec.exp_operand. cbv zeta. rewrite (zero_mask_false [v] Hv).
    rewrite !norm_single by (unfold p, v; lra). cbn [map].
    replace (1 / (1 - p ^ 2) * v) with 6 by (unfold p, v; field).
    f_equal. unfold v. field. }
  pose proof tanh_6_bounds as Ht.
  assert (Hw : Spec.in_ball (Spec.exp_operand [v] [p])).
  { rewrite Ew. apply in_ball_lt. unfold TOLERANCE. simpl. nra. }
  assert (He : Metric.exp (Arr1 [v]) (Arr1 [p]) =
               Ok [Spec.mobius [p] [tanh 6]]).
  { change (Metric.exp (Arr1 [v]) (Arr1 [p]))
      with (Metric.exp (Arr2 [[v]]) (Arr2 [[p]])).
    apply (exp_Ok_iff [[v]] [[p]]); [reflexivity|].
    cbn [combine map zip_with all forallb].
    unfold Spec.in_ball in Hp, Hw. rewrite Hp, Hw.
    repeat split. unfold Spec.exp_snap. cbn [fst snd].
    rewrite (zero_mask_false [v] Hv), mobius_add_row_formula.
    now rewrite Ew. }
  repeat split; try assumption.
  exists (Spec.mobius [p] [tanh 6]). split; [exact He|].
  apply log_raises_point, belongs_row_false.
  rewrite Ew in Hw.
  pose proof (in_ball_lt_1 _ Hp) as Hp1.
  pose proof (in_ball_lt_1 _ Hw) as Hw1.
  pose proof (mobius_norm [p] [tanh 6] eq_refl Hp1 Hw1) as HN.
  pose proof (mobius_den_pos [p] [tanh 6] eq_refl Hp1 Hw1) as HD.
  set (s := sum (sq (Spec.mobius [p] [tanh 6]))) in *.
  unfold dot, sum, sq in HN, HD. simpl in HN, HD.
  set (f := tanh 6) in *.
  assert (Hq : (1 - (p * (p * 1) + 0)) * (1 - (f * (f * 1) + 0)) /
               (1 + 2 * (p * f + 0) + (p * (p * 1) + 0) * (f * (f * 1) + 0))
               <= 1e-6).
  { apply Rmult_le_reg_r with
      (1 + 2 * (p * f + 0) + (p * (p * 1) + 0) * (f * (f * 1) + 0));
      [exact HD|].
    unfold Rdiv. rewrite Rmult_assoc, Rinv_l by lra.
    unfold p in *. nra. }
  unfold TOLERANCE. lra.
Qed.
